(** * Scratch-org pool engine of sfpowerscripts: a shallow embedding

    The development follows the TypeScript sources:
    - [PreRequisiteCheck.checkForPrerequisites] (process-wide memoised check),
    - [ScratchOrgUtils] (queries, mutations and provisioning against the DevHub),
    - [QueryHelper.query],
    - [PoolListImpl.execute] and the [List.run] command.

    Asynchronous code is sequential here: every [await] is a point where the
    remote service answers, so a method is a function from the current world to
    an outcome and the next world.  Logging is left out. *)

From Stdlib Require Import String Ascii List Arith NArith Lia Bool DecimalString.
From stdpp Require Import base option list strings gmap.

(** ** JavaScript values used by the sources *)

(** A string-valued property that may be missing ([undefined] or [null]). *)
Abbreviation jsval := (option string).

(** Truthiness of a possibly missing string: [undefined], [null] and [""] are falsy. *)
Definition truthy (v : jsval) : bool :=
  match v with
  | Some s => negb (String.eqb s "")
  | None => false
  end.

(** Truthiness of a possibly missing boolean (a command flag that was not given). *)
Definition truthyFlag (v : option bool) : bool :=
  match v with
  | Some b => b
  | None => false
  end.

(** [v === "literal"]. *)
Definition strictEq (v : jsval) (lit : string) : bool :=
  match v with
  | Some s => String.eqb s lit
  | None => false
  end.

(** A missing value inside a template literal prints as [undefined]. *)
Definition template (v : jsval) : string :=
  match v with
  | Some s => s
  | None => "undefined"
  end.

(** [s.slice(start, end)] for indices within [0 .. ], end clamped to the length. *)
Definition slice (start stop : nat) (s : string) : string :=
  String.substring start (stop - start) s.

(** [array.join(sep)]. *)
Fixpoint join (sep : string) (l : list string) : string :=
  match l with
  | [] => ""
  | [x] => x
  | x :: rest => x +:+ sep +:+ join sep rest
  end.

(** [array.includes(item)] on strings. *)
Definition includes (l : list string) (item : string) : bool :=
  existsb (String.eqb item) l.

(** Decimal rendering of a number inside a template literal (integers below 1e21). *)
Definition numberToString (n : nat) : string :=
  NilEmpty.string_of_uint (Nat.to_uint n).

(** ** Data model *)

(** One entry of a picklist in a describe result. *)
Record PicklistEntry := { value : string; active : bool }.

(** One field of a describe result. *)
Record Field := { name : string; picklistValues : list PicklistEntry }.

Record DescribeSObjectResult := { fields : list Field }.

(** Errors that the sources throw or let through. *)
Inductive JsError :=
| Error (message : string)
| TypeError (message : string)
| PreRequisiteCheckError (message : string) (data : list Field).

Definition errorMessage (e : JsError) : string :=
  match e with
  | Error m => m
  | TypeError m => m
  | PreRequisiteCheckError m _ => m
  end.

(** Rows of the [ScratchOrgInfo] object as the queries select them. A column
    that was not selected, or that is [null] in the DevHub, is [None]. *)
Module ScratchOrgInfo.
Record t := {
  Id : jsval;
  Pooltag__c : jsval;
  CreatedDate : jsval;
  ScratchOrg : jsval;
  ExpirationDate : jsval;
  SignupUsername : jsval;
  SignupEmail : jsval;
  Password__c : jsval;
  Allocation_status__c : jsval;
  LoginUrl : jsval;
  SfdxAuthUrl__c : jsval
}.
End ScratchOrgInfo.

Record QueryResult := {
  records : list ScratchOrgInfo.t;
  totalSize : nat
}.

(** Modelled from the spec: the [ScratchOrg] interface is imported by the
    sources but its declaration is not among them. The fields are those the
    sources read and write, each optional (as [let soDetail: ScratchOrg = {}]
    in [PoolListImpl.execute] requires), with the data model of the spec:
    identity, access, lifecycle and classification fields and the derived
    status. *)
Record ScratchOrg := {
  tag : jsval;
  recordId : jsval;
  orgId : jsval;
  loginURL : jsval;
  signupEmail : jsval;
  username : jsval;
  alias : jsval;
  password : jsval;
  expityDate : jsval;
  status : jsval;
  sfdxAuthUrl : jsval
}.

(** The object literal [{}]. *)
Definition emptyScratchOrg : ScratchOrg :=
  {| tag := None; recordId := None; orgId := None; loginURL := None;
     signupEmail := None; username := None; alias := None; password := None;
     expityDate := None; status := None; sfdxAuthUrl := None |}.

#[global] Instance ScratchOrg_inhabited : Inhabited ScratchOrg :=
  populate emptyScratchOrg.

Definition set_orgId (v : jsval) (so : ScratchOrg) : ScratchOrg :=
  {| tag := tag so; recordId := recordId so; orgId := v; loginURL := loginURL so;
     signupEmail := signupEmail so; username := username so; alias := alias so;
     password := password so; expityDate := expityDate so; status := status so;
     sfdxAuthUrl := sfdxAuthUrl so |}.

Definition set_recordId (v : jsval) (so : ScratchOrg) : ScratchOrg :=
  {| tag := tag so; recordId := v; orgId := orgId so; loginURL := loginURL so;
     signupEmail := signupEmail so; username := username so; alias := alias so;
     password := password so; expityDate := expityDate so; status := status so;
     sfdxAuthUrl := sfdxAuthUrl so |}.

Definition set_loginURL (v : jsval) (so : ScratchOrg) : ScratchOrg :=
  {| tag := tag so; recordId := recordId so; orgId := orgId so; loginURL := v;
     signupEmail := signupEmail so; username := username so; alias := alias so;
     password := password so; expityDate := expityDate so; status := status so;
     sfdxAuthUrl := sfdxAuthUrl so |}.

Definition set_password (v : jsval) (so : ScratchOrg) : ScratchOrg :=
  {| tag := tag so; recordId := recordId so; orgId := orgId so; loginURL := loginURL so;
     signupEmail := signupEmail so; username := username so; alias := alias so;
     password := v; expityDate := expityDate so; status := status so;
     sfdxAuthUrl := sfdxAuthUrl so |}.

Definition set_sfdxAuthUrl (v : jsval) (so : ScratchOrg) : ScratchOrg :=
  {| tag := tag so; recordId := recordId so; orgId := orgId so; loginURL := loginURL so;
     signupEmail := signupEmail so; username := username so; alias := alias so;
     password := password so; expityDate := expityDate so; status := status so;
     sfdxAuthUrl := v |}.

(** The hub org handle: what the sources read from it and from its connection. *)
Record Org := {
  getUsername : jsval;
  instanceUrl : string;
  accessToken : string
}.

(** The argument of [sobject(..).update]: an object or an array of objects,
    each a list of column/value pairs. *)
Inductive SoInfo :=
| OneRecord (columns : list (string * string))
| ManyRecords (rows : list (list (string * string))).

(** What [update] resolves to: one record result or an array of them. *)
Inductive UpdateResult :=
| RecordResult (success : bool)
| RecordResults (successes : list bool).

(** Result of the scratch-org creation command. *)
Record CreateResult := { created_orgId : jsval; created_username : jsval }.

(** Result of the password generation command. *)
Record PasswordData := { pw_username : jsval; pw_password : jsval }.

(** ** Retry options and the calls that leave the process *)

(** [minTimeout] is in milliseconds. *)
Record RetryOptions := { retries : nat; minTimeout : N }.

#[global] Instance RetryOptions_eq_dec : EqDecision RetryOptions.
Proof. solve_decision. Defined.

Inductive Request :=
| ReqQuery (tooling : bool) (soql : string)
| ReqDescribe (sobject : string)
| ReqUpdate (sobject : string) (soInfo : SoInfo)
| ReqDel (sobject : string) (ids : list string)
| ReqConnRequest (method url : string) (inputs : list (string * string))
| ReqHttp (method url authorization : string)
| ReqCreateScratchOrg (configFilePath : string) (devhub : jsval)
    (aliasName : string) (expiry : nat) (adminEmail : jsval)
| ReqPasswordGenerate (user : jsval)
| ReqAuthInfo (user : jsval)
| ReqRefreshAuth
| ReqMaxApiVersion.

(** A call as it is recorded: the request, and the options of the retry
    wrapper it was issued under ([None] outside any wrapper). *)
Record Call := { request : Request; policy : option RetryOptions }.

(** ** The world *)

(** [heap] holds the [ScratchOrg] objects that callers pass by reference;
    the three [PreRequisiteCheck] statics and the compatibility flag of
    [ScratchOrgUtils] are process-wide; [calls] lists the calls issued so
    far, oldest first. *)
Record World := {
  heap : gmap nat ScratchOrg;
  isPrerequisiteChecked : bool;
  isPrerequisiteMet : bool;
  describeResult : option DescribeSObjectResult;
  isNewVersionCompatible : bool;
  calls : list Call
}.

(** A process that has just started. *)
Definition freshProcess (h : gmap nat ScratchOrg) : World :=
  {| heap := h; isPrerequisiteChecked := false; isPrerequisiteMet := false;
     describeResult := None; isNewVersionCompatible := false; calls := [] |}.

Definition recordCall (c : Call) (w : World) : World :=
  {| heap := heap w; isPrerequisiteChecked := isPrerequisiteChecked w;
     isPrerequisiteMet := isPrerequisiteMet w; describeResult := describeResult w;
     isNewVersionCompatible := isNewVersionCompatible w; calls := calls w ++ [c] |}.

Definition set_heap (h : gmap nat ScratchOrg) (w : World) : World :=
  {| heap := h; isPrerequisiteChecked := isPrerequisiteChecked w;
     isPrerequisiteMet := isPrerequisiteMet w; describeResult := describeResult w;
     isNewVersionCompatible := isNewVersionCompatible w; calls := calls w |}.

Definition set_describeResult (d : option DescribeSObjectResult) (w : World) : World :=
  {| heap := heap w; isPrerequisiteChecked := isPrerequisiteChecked w;
     isPrerequisiteMet := isPrerequisiteMet w; describeResult := d;
     isNewVersionCompatible := isNewVersionCompatible w; calls := calls w |}.

Definition set_isPrerequisiteChecked (b : bool) (w : World) : World :=
  {| heap := heap w; isPrerequisiteChecked := b;
     isPrerequisiteMet := isPrerequisiteMet w; describeResult := describeResult w;
     isNewVersionCompatible := isNewVersionCompatible w; calls := calls w |}.

Definition set_isNewVersionCompatible (b : bool) (w : World) : World :=
  {| heap := heap w; isPrerequisiteChecked := isPrerequisiteChecked w;
     isPrerequisiteMet := isPrerequisiteMet w; describeResult := describeResult w;
     isNewVersionCompatible := b; calls := calls w |}.

Definition set_isPrerequisiteMet (b : bool) (w : World) : World :=
  {| heap := heap w; isPrerequisiteChecked := isPrerequisiteChecked w;
     isPrerequisiteMet := b; describeResult := describeResult w;
     isNewVersionCompatible := isNewVersionCompatible w; calls := calls w |}.

(** ** Outcomes and the monad of asynchronous methods *)

Inductive Outcome (A : Type) :=
| Returned (a : A)
| Thrown (e : JsError).
Arguments Returned {A} a.
Arguments Thrown {A} e.

(** The remote side: how each kind of call answers. The first argument is
    the number of calls issued before this one, so that an answer may change
    from one attempt to the next. *)
Record Remote := {
  answerQuery : nat -> bool -> string -> Outcome QueryResult;
  answerDescribe : nat -> string -> Outcome (option DescribeSObjectResult);
  answerUpdate : nat -> string -> SoInfo -> Outcome UpdateResult;
  answerDel : nat -> string -> list string -> Outcome unit;
  answerConnRequest : nat -> string -> string -> list (string * string) -> Outcome unit;
  answerHttpRequest : nat -> string -> string -> string -> Outcome QueryResult;
  answerCreateScratchOrg : nat -> string -> jsval -> string -> nat -> jsval -> Outcome CreateResult;
  answerPasswordGenerate : nat -> jsval -> Outcome PasswordData;
  answerAuthInfo : nat -> jsval -> Outcome string;
  answerRefreshAuth : nat -> Outcome unit;
  answerMaxApiVersion : nat -> Outcome string
}.

(** A method reads the options of the retry wrapper it runs under and
    transforms the world. *)
Definition M (A : Type) : Type :=
  option RetryOptions -> World -> Outcome A * World.

Definition ret {A} (a : A) : M A := fun _ w => (Returned a, w).

Definition throw {A} (e : JsError) : M A := fun _ w => (Thrown e, w).

Definition bind {A B} (m : M A) (k : A -> M B) : M B :=
  fun ctx w =>
    match m ctx w with
    | (Returned a, w') => k a ctx w'
    | (Thrown e, w') => (Thrown e, w')
    end.

(** [try { m } catch (err) { h err }]. *)
Definition tryCatch {A} (m : M A) (h : JsError -> M A) : M A :=
  fun ctx w =>
    match m ctx w with
    | (Returned a, w') => (Returned a, w')
    | (Thrown e, w') => h e ctx w'
    end.

Definition getWorld : M World := fun _ w => (Returned w, w).

Definition modifyWorld (f : World -> World) : M unit :=
  fun _ w => (Returned tt, f w).

Declare Scope js_scope.
Delimit Scope js_scope with js.
Notation "x <- m ;; k" := (bind m (fun x => k))
  (at level 100, m at next level, right associativity) : js_scope.
Notation "m ;;; k" := (bind m (fun _ => k))
  (at level 100, right associativity) : js_scope.
Local Open Scope js_scope.

(** Issue a call: record it with the wrapper in force and take the answer
    of the remote side. *)
Definition issue {A} (req : Request) (answer : nat -> Outcome A) : M A :=
  fun ctx w =>
    (answer (length (calls w)), recordCall {| request := req; policy := ctx |} w).

(** ** The retry wrapper

    [retry(fn, { retries, minTimeout })] of the async-retry package, which
    the sources import: [fn] is run; when it throws it is run again, at most
    [retries] more times, after a wait of at least [minTimeout] milliseconds;
    when the last run has thrown too, the wrapper rejects with the error whose
    message occurred most often among the runs (the later one on a tie).  The
    sources never call [bail].  Waiting itself is not modelled: the options a
    call was issued under are what [calls] records. *)

(** The error the wrapper rejects with: one pass over the errors of the
    runs, counting messages. *)
Fixpoint mainErrorFrom (counts : gmap string nat) (main : JsError) (mainCount : nat)
    (errors : list JsError) : JsError :=
  match errors with
  | [] => main
  | e :: rest =>
      let count := S (default 0 (counts !! errorMessage e)) in
      let counts' := <[errorMessage e := count]> counts in
      if Nat.leb mainCount count
      then mainErrorFrom counts' e count rest
      else mainErrorFrom counts' main mainCount rest
  end.

Definition mainError (first : JsError) (errors : list JsError) : JsError :=
  mainErrorFrom ∅ first 0 errors.

Fixpoint runAttempt {A} (retriesLeft : nat) (errors : list JsError) (fn : M A)
    (opts : RetryOptions) (w : World) : Outcome A * World :=
  match fn (Some opts) w with
  | (Returned a, w') => (Returned a, w')
  | (Thrown e, w') =>
      match retriesLeft with
      | 0 => (Thrown (mainError e (errors ++ [e])), w')
      | S n => runAttempt n (errors ++ [e]) fn opts w'
      end
  end.

Definition retry {A} (fn : M A) (opts : RetryOptions) : M A :=
  fun _ w => runAttempt (retries opts) [] fn opts w.

(** ** PreRequisiteCheck *)

Definition expectedValues : list string :=
  ["In Progress"; "Available"; "Allocate"; "Assigned"].

(** The [for (const field of describeResult.fields)] loop with its locals
    [sfdxAuthUrlFieldExists] and [availableValues]; the loop is left at the
    first field named [Allocation_status__c] that has four picklist values. *)
Fixpoint scanFields (fs : list Field) (sfdxAuthUrlFieldExists : bool)
    (availableValues : list string) : bool * list string :=
  match fs with
  | [] => (sfdxAuthUrlFieldExists, availableValues)
  | field :: rest =>
      let sfdxAuthUrlFieldExists :=
        if String.eqb (name field) "SfdxAuthUrl__c" then true
        else sfdxAuthUrlFieldExists in
      if String.eqb (name field) "Allocation_status__c"
         && Nat.eqb (length (picklistValues field)) 4
      then
        (sfdxAuthUrlFieldExists,
         availableValues ++ map value (List.filter active (picklistValues field)))
      else scanFields rest sfdxAuthUrlFieldExists availableValues
  end.

Definition prerequisiteMessage : string :=
  "Required Prerequisite values in ScratchOrgInfo is missing in the DevHub" +:+
  "For more information Please refer https://github.com/Accenture/SFPLogger/blob/main/src_saleforce_packages/scratchorgpool/force-app/main/default/objects/ScratchOrgInfo/fields/Allocation_status__c.field-meta.xml " +:+
  String (ascii_of_nat 10) "".

Section Engine.

Variable remote : Remote.

(** The body given to [retry] in [checkForPrerequisites]. The two locals
    are written only after [describe] has resolved, and nothing after that
    point throws, so the run that resolves is the only one that wrote them:
    the body returns them. *)
Definition describeAndScan : M (bool * list string) :=
  d <- issue (ReqDescribe "ScratchOrgInfo") (fun n => answerDescribe remote n "ScratchOrgInfo") ;;
  modifyWorld (set_describeResult d) ;;;
  match d with
  | Some dr => ret (scanFields (fields dr) false [])
  | None => ret (false, [])
  end.

Definition checkForPrerequisites (hubOrg : Org) : M unit :=
  w <- getWorld ;;
  (if negb (isPrerequisiteChecked w) then
     locals <- retry describeAndScan {| retries := 3; minTimeout := 30000%N |} ;;
     let '(sfdxAuthUrlFieldExists, availableValues) := locals in
     modifyWorld (set_isPrerequisiteChecked true) ;;;
     let statusValuesAvailable :=
       Nat.eqb
         (length (List.filter (fun item => negb (includes availableValues item))
                    expectedValues)) 0 in
     if sfdxAuthUrlFieldExists && statusValuesAvailable
     then modifyWorld (set_isPrerequisiteMet true)
     else ret tt
   else ret tt) ;;;
  w <- getWorld ;;
  if negb (isPrerequisiteMet w) then
    match describeResult w with
    | Some dr => throw (PreRequisiteCheckError prerequisiteMessage (fields dr))
    | None => throw (TypeError "Cannot read property 'fields' of undefined")
    end
  else ret tt.

(** ** ScratchOrgUtils *)

Definition ORDER_BY_FILTER : string := " ORDER BY CreatedDate ASC".

Definition newline : string := String (ascii_of_nat 10) "".

(** A property key made from a column of a row: [null] names the
    property ["null"]. Properties inherited from [Object.prototype] are
    not modelled. *)
Definition propertyKey (v : jsval) : string :=
  match v with
  | Some s => s
  | None => "null"
  end.

Definition arrayToObject (array : list ScratchOrgInfo.t)
    (keyfield : ScratchOrgInfo.t -> jsval) : gmap string ScratchOrgInfo.t :=
  fold_left (fun obj item => <[propertyKey (keyfield item) := item]> obj) array ∅.

Definition getScratchOrgLimits (hubOrg : Org) (apiversion : string) : M QueryResult :=
  let query_uri :=
    instanceUrl hubOrg +:+ "/services/data/v" +:+ apiversion +:+ "/limits" in
  let authorization := "Bearer " +:+ accessToken hubOrg in
  issue (ReqHttp "get" query_uri authorization)
    (fun n => answerHttpRequest remote n "get" query_uri authorization).

Definition getScratchOrgRecordsAsMapByUser (hubOrg : Org)
    : M (gmap string ScratchOrgInfo.t) :=
  let query :=
    "SELECT count(id) In_Use, SignupEmail FROM ActiveScratchOrg GROUP BY SignupEmail ORDER BY count(id) DESC" in
  results <- issue (ReqQuery false query) (fun n => answerQuery remote n false query) ;;
  ret (arrayToObject (records results) ScratchOrgInfo.SignupEmail).

Definition getScratchOrgLoginURL (hubOrg : Org) (user : jsval) : M jsval :=
  let query :=
    "SELECT Id, SignupUsername, LoginUrl FROM ScratchOrgInfo WHERE SignupUsername = '"
    +:+ template user +:+ "'" in
  results <- issue (ReqQuery false query) (fun n => answerQuery remote n false query) ;;
  match records results with
  | first :: _ => ret (ScratchOrgInfo.LoginUrl first)
  | [] => throw (TypeError "Cannot read property 'LoginUrl' of undefined")
  end.

Definition createScratchOrg (id : nat) (adminEmail : jsval)
    (config_file_path : string) (expiry : nat) (hubOrg : Org) : M ScratchOrg :=
  let aliasName := "SO" +:+ numberToString id in
  result <- tryCatch
              (issue (ReqCreateScratchOrg config_file_path (getUsername hubOrg)
                        aliasName expiry adminEmail)
                 (fun n => answerCreateScratchOrg remote n config_file_path
                             (getUsername hubOrg) aliasName expiry adminEmail))
              (fun error => throw error) ;;
  let scratchOrg :=
    {| tag := None; recordId := None;
       orgId := created_orgId result;
       loginURL := None;
       signupEmail := Some (if truthy adminEmail then template adminEmail else "");
       username := created_username result;
       alias := Some aliasName;
       password := None; expityDate := None; status := None;
       sfdxAuthUrl := None |} in
  loginUrl <- getScratchOrgLoginURL hubOrg (username scratchOrg) ;;
  let scratchOrg := set_loginURL loginUrl scratchOrg in
  passwordData <- issue (ReqPasswordGenerate (username scratchOrg))
                    (fun n => answerPasswordGenerate remote n (username scratchOrg)) ;;
  let scratchOrg := set_password (pw_password passwordData) scratchOrg in
  authUrl <- issue (ReqAuthInfo (username scratchOrg))
               (fun n => answerAuthInfo remote n (username scratchOrg)) ;;
  let scratchOrg := set_sfdxAuthUrl (Some authUrl) scratchOrg in
  if negb (truthy (pw_password passwordData))
  then throw (Error "Unable to setup password to scratch org")
  else ret scratchOrg.

Definition readObject (ref : nat) : M ScratchOrg :=
  fun _ w => (Returned (heap w !!! ref), w).

Definition writeObject (ref : nat) (so : ScratchOrg) : M unit :=
  modifyWorld (fun w => set_heap (<[ref := so]> (heap w)) w).

Definition shareScratchOrgThroughEmail (emailId : string) (scratchOrg : nat)
    (hubOrg : Org) : M unit :=
  so <- readObject scratchOrg ;;
  let hubOrgUserName := template (getUsername hubOrg) in
  let body :=
    hubOrgUserName +:+ " has fetched a new scratch org from the Scratch Org Pool!"
    +:+ newline +:+ newline
    +:+ "   All the post scratch org scripts have been succesfully completed in this org!"
    +:+ newline +:+ newline
    +:+ "   The Login url for this org is : " +:+ template (loginURL so)
    +:+ newline +:+ newline
    +:+ "   Username: " +:+ template (username so) +:+ newline +:+ newline
    +:+ "   Password: " +:+ template (password so) +:+ newline +:+ newline
    +:+ "   Please use sfdx force:auth:web:login -r " +:+ template (loginURL so)
    +:+ " -a <alias>  command to authenticate against this Scratch org</p>"
    +:+ newline
    +:+ "   Thank you for using SFPLogger!" in
  let inputs :=
    [("emailBody", body);
     ("emailAddresses", emailId);
     ("emailSubject", hubOrgUserName +:+ " created you a new Salesforce org");
     ("senderType", "CurrentUser")] in
  let url := "/services/data/v50.0/actions/standard/emailSimple" in
  retry
    (issue (ReqConnRequest "post" url inputs)
       (fun n => answerConnRequest remote n "post" url inputs))
    {| retries := 3; minTimeout := 30000%N |}.

(** [scratchOrgs.map(function (scratchOrg) { ... })]: each object is
    updated in place and its quoted identifier collected. *)
Fixpoint truncateOrgIds (scratchOrgs : list nat) : M (list string) :=
  match scratchOrgs with
  | [] => ret []
  | ref :: rest =>
      so <- readObject ref ;;
      match orgId so with
      | None => throw (TypeError "Cannot read property 'slice' of undefined")
      | Some id =>
          writeObject ref (set_orgId (Some (slice 0 15 id)) so) ;;;
          so <- readObject ref ;;
          quoted <- truncateOrgIds rest ;;
          ret (("'" +:+ template (orgId so) +:+ "'") :: quoted)
      end
  end.

(** [scratchOrgs.forEach((scratchOrg) => { scratchOrg.recordId = ... })]. *)
Fixpoint assignRecordIds (resultAsObject : gmap string ScratchOrgInfo.t)
    (scratchOrgs : list nat) : M unit :=
  match scratchOrgs with
  | [] => ret tt
  | ref :: rest =>
      so <- readObject ref ;;
      match resultAsObject !! template (orgId so) with
      | None => throw (TypeError "Cannot read property 'Id' of undefined")
      | Some row =>
          writeObject ref (set_recordId (ScratchOrgInfo.Id row) so) ;;;
          assignRecordIds resultAsObject rest
      end
  end.

Definition getScratchOrgRecordId (scratchOrgs : option (list nat)) (hubOrg : Org)
    : M (option QueryResult) :=
  match scratchOrgs with
  | None => ret None
  | Some [] => ret None
  | Some refs =>
      quoted <- truncateOrgIds refs ;;
      let scratchOrgIds := join "," quoted in
      let query :=
        "SELECT Id, ScratchOrg FROM ScratchOrgInfo WHERE ScratchOrg IN ( "
        +:+ scratchOrgIds +:+ " )" in
      retry
        (results <- issue (ReqQuery false query) (fun n => answerQuery remote n false query) ;;
         let resultAsObject := arrayToObject (records results) ScratchOrgInfo.ScratchOrg in
         assignRecordIds resultAsObject refs ;;;
         ret (Some results))
        {| retries := 3; minTimeout := 3000%N |}
  end.

Definition setScratchOrgInfo (soInfo : SoInfo) (hubOrg : Org) : M bool :=
  retry
    (tryCatch
       (result <- issue (ReqUpdate "ScratchOrgInfo" soInfo)
                    (fun n => answerUpdate remote n "ScratchOrgInfo" soInfo) ;;
        ret (match result with
             | RecordResult success => success
             | RecordResults _ => true
             end))
       (fun err => ret false))
    {| retries := 3; minTimeout := 3000%N |}.

(** The query text of [getScratchOrgsByTag], built as the body of its
    retry wrapper builds it. *)
Definition scratchOrgsByTagQuery (tag : jsval) (hubOrg : Org)
    (isMyPool unAssigned : bool) : string :=
  let query :=
    match tag with
    | Some t =>
        "SELECT Pooltag__c, Id,  CreatedDate, ScratchOrg, ExpirationDate, SignupUsername, SignupEmail, Password__c, Allocation_status__c,LoginUrl,SfdxAuthUrl__c FROM ScratchOrgInfo WHERE Pooltag__c = '"
        +:+ t +:+ "'  AND Status = 'Active' "
    | None =>
        "SELECT Pooltag__c, Id,  CreatedDate, ScratchOrg, ExpirationDate, SignupUsername, SignupEmail, Password__c, Allocation_status__c,LoginUrl,SfdxAuthUrl__c FROM ScratchOrgInfo WHERE Pooltag__c != null  AND Status = 'Active' "
    end in
  let query :=
    if isMyPool
    then query +:+ " AND createdby.username = '" +:+ template (getUsername hubOrg) +:+ "' "
    else query in
  let query :=
    if unAssigned
    then query +:+ "AND ( Allocation_status__c ='Available' OR Allocation_status__c = 'In Progress' ) "
    else query in
  query +:+ ORDER_BY_FILTER.

Definition getScratchOrgsByTag (tag : jsval) (hubOrg : Org)
    (isMyPool unAssigned : bool) : M QueryResult :=
  retry
    (let query := scratchOrgsByTagQuery tag hubOrg isMyPool unAssigned in
     issue (ReqQuery false query) (fun n => answerQuery remote n false query))
    {| retries := 3; minTimeout := 3000%N |}.

Definition getActiveScratchOrgsByInfoId (hubOrg : Org) (scrathOrgIds : string)
    : M QueryResult :=
  retry
    (let query :=
       "SELECT Id, SignupUsername FROM ActiveScratchOrg WHERE ScratchOrgInfoId IN ("
       +:+ scrathOrgIds +:+ ") " in
     issue (ReqQuery false query) (fun n => answerQuery remote n false query))
    {| retries := 3; minTimeout := 3000%N |}.

Definition countQuery (tag : string) : string :=
  "SELECT Id, CreatedDate, ScratchOrg, ExpirationDate, SignupUsername, SignupEmail, Password__c, Allocation_status__c,LoginUrl FROM ScratchOrgInfo WHERE Pooltag__c = '"
  +:+ tag +:+ "' AND Status = 'Active' ".

Definition getCountOfActiveScratchOrgsByTag (tag : string) (hubOrg : Org) : M nat :=
  retry
    (let query := countQuery tag in
     results <- issue (ReqQuery false query) (fun n => answerQuery remote n false query) ;;
     ret (totalSize results))
    {| retries := 3; minTimeout := 3000%N |}.

Definition getCountOfActiveScratchOrgsByTagAndUsername (tag : string) (hubOrg : Org)
    : M nat :=
  retry
    (let query := countQuery tag in
     results <- issue (ReqQuery false query) (fun n => answerQuery remote n false query) ;;
     ret (totalSize results))
    {| retries := 3; minTimeout := 3000%N |}.

Definition getActiveScratchOrgRecordIdGivenScratchOrg (hubOrg : Org)
    (apiversion scratchOrgId : string) : M jsval :=
  retry
    (let query_uri :=
       instanceUrl hubOrg +:+ "/services/data/v" +:+ apiversion
       +:+ "/query?q=SELECT+Id+FROM+ActiveScratchOrg+WHERE+ScratchOrg+=+'"
       +:+ scratchOrgId +:+ "'" in
     let authorization := "Bearer " +:+ accessToken hubOrg in
     result <- issue (ReqHttp "get" query_uri authorization)
                 (fun n => answerHttpRequest remote n "get" query_uri authorization) ;;
     match records result with
     | first :: _ => ret (ScratchOrgInfo.Id first)
     | [] => throw (TypeError "Cannot read property 'Id' of undefined")
     end)
    {| retries := 3; minTimeout := 3000%N |}.

Definition deleteScratchOrg (hubOrg : Org) (scratchOrgIds : list string) : M unit :=
  retry
    (issue (ReqDel "ActiveScratchOrg" scratchOrgIds)
       (fun n => answerDel remote n "ActiveScratchOrg" scratchOrgIds))
    {| retries := 3; minTimeout := 3000%N |}.

(** ** QueryHelper *)

Definition QueryHelper_query (query : string) (isTooling : bool)
    : M (list ScratchOrgInfo.t) :=
  retry
    (result <- issue (ReqQuery isTooling query)
                 (fun n => answerQuery remote n isTooling query) ;;
     ret (records result))
    {| retries := 3; minTimeout := 2000%N |}.

(** ** PoolListImpl *)

(** Modelled from the spec: [ScratchOrgUtils.checkForNewVersionCompatible]
    is called by [PoolListImpl.execute] but is not among the sources. By
    the spec it computes the process-wide compatibility mode; here it is any
    method, and the mode it leaves behind is [isNewVersionCompatible]. *)
Variable checkForNewVersionCompatible : Org -> M unit.

Record PoolListImpl := {
  impl_hubOrg : Org;
  impl_tag : jsval;
  impl_mypool : option bool;
  impl_allScratchOrgs : option bool
}.

(** The body of the [for (let element of results.records)] loop. *)
Definition soDetailOf (newVersionCompatible : bool) (element : ScratchOrgInfo.t)
    : ScratchOrg :=
  {| tag := ScratchOrgInfo.Pooltag__c element;
     recordId := None;
     orgId := ScratchOrgInfo.ScratchOrg element;
     loginURL := ScratchOrgInfo.LoginUrl element;
     signupEmail := None;
     username := ScratchOrgInfo.SignupUsername element;
     alias := None;
     password := ScratchOrgInfo.Password__c element;
     expityDate := ScratchOrgInfo.ExpirationDate element;
     status :=
       Some
         (if strictEq (ScratchOrgInfo.Allocation_status__c element) "Assigned"
          then "In use"
          else if (newVersionCompatible
                   && strictEq (ScratchOrgInfo.Allocation_status__c element) "Available")
                  || (negb newVersionCompatible
                      && negb (truthy (ScratchOrgInfo.Allocation_status__c element)))
          then "Available"
          else "Provisioning in progress");
     sfdxAuthUrl := None |}.

Definition execute (this : PoolListImpl) : M (list ScratchOrg) :=
  checkForNewVersionCompatible (impl_hubOrg this) ;;;
  results <- getScratchOrgsByTag (impl_tag this) (impl_hubOrg this)
               (truthyFlag (impl_mypool this))
               (negb (truthyFlag (impl_allScratchOrgs this))) ;;
  w <- getWorld ;;
  ret (map (soDetailOf (isNewVersionCompatible w)) (records results)).

(** ** The list command *)

Record Flags := {
  flag_tag : jsval;
  flag_mypool : option bool;
  flag_allscratchorgs : option bool;
  flag_json : option bool;
  flag_apiversion : jsval
}.

Record Output := {
  total : nat;
  inuse : nat;
  unused : nat;
  inprovision : nat;
  scratchOrgDetails : list ScratchOrg
}.

(** [element => element.status === literal]. *)
Definition hasStatus (literal : string) (element : ScratchOrg) : bool :=
  strictEq (status element) literal.

Definition run (hubOrg : Org) (flags : Flags) : M Output :=
  issue ReqRefreshAuth (answerRefreshAuth remote) ;;;
  (if truthy (flag_apiversion flags) then ret (flag_apiversion flags)
   else v <- issue ReqMaxApiVersion (answerMaxApiVersion remote) ;; ret (Some v)) ;;;
  let listImpl :=
    {| impl_hubOrg := hubOrg;
       impl_tag := flag_tag flags;
       impl_mypool := flag_allscratchorgs flags;
       impl_allScratchOrgs := None |} in
  result <- execute listImpl ;;
  let result :=
    if negb (truthyFlag (flag_mypool flags)) && (0 <? length result)
    then map (set_password None) result
    else result in
  let scratchOrgInuse := List.filter (hasStatus "In use") result in
  let scratchOrgNotInuse := List.filter (hasStatus "Available") result in
  let scratchOrgInProvision :=
    List.filter (hasStatus "Provisioning in progress") result in
  ret {| total := length scratchOrgInuse + length scratchOrgNotInuse
                  + length scratchOrgInProvision;
         inuse := length scratchOrgInuse;
         unused := length scratchOrgNotInuse;
         inprovision := length scratchOrgInProvision;
         scratchOrgDetails := result |}.

(** The histogram of [logTagCount]: the number of listed scratch orgs
    under each tag. The table printed from it has one row per key. *)
Definition tagCounts (result : list ScratchOrg) : gmap string nat :=
  fold_left
    (fun obj v => <[template (tag v) := default 0 (obj !! template (tag v)) + 1]> obj)
    result ∅.

End Engine.

(** * Vocabulary of the statements *)

(** [s] occurs inside [q]. *)
Definition occursIn (s q : string) : Prop :=
  exists before after, q = before +:+ s +:+ after.

(** [q] ends with [s]. *)
Definition endsWith (s q : string) : Prop :=
  exists before, q = before +:+ s.

(** [p] is what [s] starts with. *)
Definition startOf (p s : string) : Prop :=
  exists rest, s = p +:+ rest.

(** A method respects [R] when [R] relates the world before any run of
    it to the world after. *)
Definition respects {A} (R : option RetryOptions -> World -> World -> Prop) (m : M A)
    : Prop :=
  forall ctx w, R ctx w (snd (m ctx w)).

(** The calls a method adds, each satisfying [Q] (which may mention the
    wrapper in force). *)
Definition issuing (Q : option RetryOptions -> Call -> Prop)
    (ctx : option RetryOptions) (w w' : World) : Prop :=
  exists cs, calls w' = calls w ++ cs /\ Forall (Q ctx) cs.

(** A part of the world that a method leaves as it was. *)
Definition keeping {X} (f : World -> X) (_ : option RetryOptions) (w w' : World) : Prop :=
  f w' = f w.

(** The derivation in the words of the specification. *)
Definition derivedStatus (newVersionCompatible : bool) (allocationStatus : jsval)
    : string :=
  if decide (allocationStatus = Some "Assigned") then "In use"
  else if decide ((newVersionCompatible = true /\ allocationStatus = Some "Available")
                  \/ (newVersionCompatible = false
                      /\ (allocationStatus = None \/ allocationStatus = Some "")))
  then "Available"
  else "Provisioning in progress".

(** A status that the listing knows. *)
Definition knownStatus (so : ScratchOrg) : Prop :=
  status so = Some "In use"
  \/ status so = Some "Available"
  \/ status so = Some "Provisioning in progress".

(** The parts of the listing query, in the words of the specification:
    the selected columns, the filter on the tag (equality with a given tag, a
    non-null tag otherwise), the filter on the creator and the filter on the
    allocation status of unassigned scratch orgs. *)
Definition selectedColumns : string :=
  "SELECT Pooltag__c, Id,  CreatedDate, ScratchOrg, ExpirationDate, SignupUsername, SignupEmail, Password__c, Allocation_status__c,LoginUrl,SfdxAuthUrl__c FROM ScratchOrgInfo ".

Definition tagFilter (tag : jsval) : string :=
  match tag with
  | Some t => "WHERE Pooltag__c = '" +:+ t +:+ "' "
  | None => "WHERE Pooltag__c != null "
  end.

Definition activeFilter : string := " AND Status = 'Active' ".

Definition myPoolFilter (hubOrg : Org) (isMyPool : bool) : string :=
  if isMyPool
  then " AND createdby.username = '" +:+ template (getUsername hubOrg) +:+ "' "
  else "".

Definition unassignedFilter (unAssigned : bool) : string :=
  if unAssigned
  then "AND ( Allocation_status__c ='Available' OR Allocation_status__c = 'In Progress' ) "
  else "".

Definition oldestFirst : string := " ORDER BY CreatedDate ASC".

(** Two scratch-org objects that differ at most in [orgId] and [recordId]. *)
Definition sameExceptIds (so so' : ScratchOrg) : Prop :=
  tag so' = tag so /\ loginURL so' = loginURL so
  /\ signupEmail so' = signupEmail so /\ username so' = username so
  /\ alias so' = alias so /\ password so' = password so
  /\ expityDate so' = expityDate so /\ status so' = status so
  /\ sfdxAuthUrl so' = sfdxAuthUrl so.

(** The text of the query that resolves record ids, for the identifiers
    as they are placed in it. *)
Definition recordIdQuery (identifiers : list string) : string :=
  "SELECT Id, ScratchOrg FROM ScratchOrgInfo WHERE ScratchOrg IN ( "
  +:+ join "," (map (fun identifier => "'" +:+ identifier +:+ "'") identifiers)
  +:+ " )".

(** A relation between each object of the heap before and after a method. *)
Definition heapRel (P : nat -> ScratchOrg -> ScratchOrg -> Prop)
    (_ : option RetryOptions) (w w' : World) : Prop :=
  forall r, P r (heap w !!! r) (heap w' !!! r).

(** An object outside [refs] is as it was. *)
Definition untouchedOutside (refs : list nat) (r : nat) (so so' : ScratchOrg) : Prop :=
  r ∉ refs -> so' = so.

(** An object has the identifier it had. *)
Definition sameOrgId (_ : nat) (so so' : ScratchOrg) : Prop :=
  orgId so' = orgId so.

(** ** The prerequisite check *)

(** The field named [Allocation_status__c], its picklist and the values
    of its active entries. *)
Definition allocationStatusField (fs : list Field) : option Field :=
  List.find (fun f => String.eqb (name f) "Allocation_status__c") fs.

Definition allocationPicklist (fs : list Field) : list PicklistEntry :=
  match allocationStatusField fs with
  | Some f => picklistValues f
  | None => []
  end.

Definition activeValues (fs : list Field) : list string :=
  map value (List.filter active (allocationPicklist fs)).

Definition authUrlFieldExists (fs : list Field) : Prop :=
  "SfdxAuthUrl__c" ∈ map name fs.

(** When the check fails, in the words of the specification: the count is
    that of the active picklist. *)
Definition failsAsStated (fs : list Field) : Prop :=
  length (List.filter active (allocationPicklist fs)) <> 4
  \/ ~ expectedValues ⊆ activeValues fs
  \/ ~ authUrlFieldExists fs.

(** The same with the count taken over the whole picklist, inactive
    entries included. *)
Definition failsOnWholePicklist (fs : list Field) : Prop :=
  length (allocationPicklist fs) <> 4
  \/ ~ expectedValues ⊆ activeValues fs
  \/ ~ authUrlFieldExists fs.

(** No field named [SfdxAuthUrl__c] is listed after a field named
    [Allocation_status__c]. *)
Fixpoint authUrlListedFirst (fs : list Field) : bool :=
  match fs with
  | [] => true
  | f :: rest =>
      (if String.eqb (name f) "Allocation_status__c"
       then negb (existsb (fun g => String.eqb (name g) "SfdxAuthUrl__c") rest)
       else true)
      && authUrlListedFirst rest
  end.

(** A process that invokes the check [n] times, one invocation after the
    other, whatever each of them returns or throws. *)
Fixpoint checkRepeatedly (remote : Remote) (hubOrg : Org) (n : nat) (w : World) : World :=
  match n with
  | 0 => w
  | S k => checkRepeatedly remote hubOrg k (snd (checkForPrerequisites remote hubOrg None w))
  end.

Definition isDescribe (c : Call) : bool :=
  match request c with
  | ReqDescribe _ => true
  | _ => false
  end.

Definition describeCalls (w : World) : nat :=
  length (List.filter isDescribe (calls w)).

(** What a process that has run the check answers from then on. *)
Definition memoisedVerdict (w : World) : Outcome unit :=
  if isPrerequisiteMet w then Returned tt
  else match describeResult w with
       | Some dr => Thrown (PreRequisiteCheckError prerequisiteMessage (fields dr))
       | None => Thrown (TypeError "Cannot read property 'fields' of undefined")
       end.

Definition describeCall : Call :=
  {| request := ReqDescribe "ScratchOrgInfo";
     policy := Some {| retries := 3; minTimeout := 30000%N |} |}.

(** ** The operations that call the DevHub *)

(** The methods of [PreRequisiteCheck], [ScratchOrgUtils] and
    [QueryHelper], with their arguments. *)
Inductive Operation :=
| CheckForPrerequisites (hubOrg : Org)
| GetScratchOrgLimits (hubOrg : Org) (apiversion : string)
| GetScratchOrgRecordsAsMapByUser (hubOrg : Org)
| CreateScratchOrg (id : nat) (adminEmail : jsval) (config_file_path : string)
    (expiry : nat) (hubOrg : Org)
| ShareScratchOrgThroughEmail (emailId : string) (scratchOrg : nat) (hubOrg : Org)
| GetScratchOrgRecordId (scratchOrgs : option (list nat)) (hubOrg : Org)
| SetScratchOrgInfo (soInfo : SoInfo) (hubOrg : Org)
| GetScratchOrgsByTag (tag : jsval) (hubOrg : Org) (isMyPool unAssigned : bool)
| GetActiveScratchOrgsByInfoId (hubOrg : Org) (scrathOrgIds : string)
| GetCountOfActiveScratchOrgsByTag (tag : string) (hubOrg : Org)
| GetCountOfActiveScratchOrgsByTagAndUsername (tag : string) (hubOrg : Org)
| GetActiveScratchOrgRecordIdGivenScratchOrg (hubOrg : Org)
    (apiversion scratchOrgId : string)
| DeleteScratchOrg (hubOrg : Org) (scratchOrgIds : list string)
| QueryHelperQuery (query : string) (isTooling : bool).

(** Run a method for its effects. *)
Definition discard {A} (m : M A) : M unit := bind m (fun _ => ret tt).

Definition perform (remote : Remote) (op : Operation) : M unit :=
  match op with
  | CheckForPrerequisites hubOrg => checkForPrerequisites remote hubOrg
  | GetScratchOrgLimits hubOrg apiversion =>
      discard (getScratchOrgLimits remote hubOrg apiversion)
  | GetScratchOrgRecordsAsMapByUser hubOrg =>
      discard (getScratchOrgRecordsAsMapByUser remote hubOrg)
  | CreateScratchOrg id adminEmail config_file_path expiry hubOrg =>
      discard (createScratchOrg remote id adminEmail config_file_path expiry hubOrg)
  | ShareScratchOrgThroughEmail emailId scratchOrg hubOrg =>
      shareScratchOrgThroughEmail remote emailId scratchOrg hubOrg
  | GetScratchOrgRecordId scratchOrgs hubOrg =>
      discard (getScratchOrgRecordId remote scratchOrgs hubOrg)
  | SetScratchOrgInfo soInfo hubOrg => discard (setScratchOrgInfo remote soInfo hubOrg)
  | GetScratchOrgsByTag tag hubOrg isMyPool unAssigned =>
      discard (getScratchOrgsByTag remote tag hubOrg isMyPool unAssigned)
  | GetActiveScratchOrgsByInfoId hubOrg scrathOrgIds =>
      discard (getActiveScratchOrgsByInfoId remote hubOrg scrathOrgIds)
  | GetCountOfActiveScratchOrgsByTag tag hubOrg =>
      discard (getCountOfActiveScratchOrgsByTag remote tag hubOrg)
  | GetCountOfActiveScratchOrgsByTagAndUsername tag hubOrg =>
      discard (getCountOfActiveScratchOrgsByTagAndUsername remote tag hubOrg)
  | GetActiveScratchOrgRecordIdGivenScratchOrg hubOrg apiversion scratchOrgId =>
      discard (getActiveScratchOrgRecordIdGivenScratchOrg remote hubOrg apiversion
                 scratchOrgId)
  | DeleteScratchOrg hubOrg scratchOrgIds => deleteScratchOrg remote hubOrg scratchOrgIds
  | QueryHelperQuery query isTooling => discard (QueryHelper_query remote query isTooling)
  end.

(** The retry options under which each method issues its calls; [None]
    for the methods that call the DevHub outside any retry wrapper. *)
Definition retryOptionsOf (op : Operation) : option RetryOptions :=
  match op with
  | QueryHelperQuery _ _ => Some {| retries := 3; minTimeout := 2000%N |}
  | GetScratchOrgRecordId _ _
  | SetScratchOrgInfo _ _
  | GetScratchOrgsByTag _ _ _ _
  | GetActiveScratchOrgsByInfoId _ _
  | GetCountOfActiveScratchOrgsByTag _ _
  | GetCountOfActiveScratchOrgsByTagAndUsername _ _
  | GetActiveScratchOrgRecordIdGivenScratchOrg _ _ _
  | DeleteScratchOrg _ _ => Some {| retries := 3; minTimeout := 3000%N |}
  | CheckForPrerequisites _
  | ShareScratchOrgThroughEmail _ _ _ => Some {| retries := 3; minTimeout := 30000%N |}
  | GetScratchOrgLimits _ _
  | GetScratchOrgRecordsAsMapByUser _
  | CreateScratchOrg _ _ _ _ _ => None
  end.

(** The policy of the specification: three attempts with a minimum
    backoff of 2, 3 or 30 seconds. *)
Definition statedPolicy (c : Call) : Prop :=
  exists seconds,
    policy c = Some {| retries := 3; minTimeout := (seconds * 1000)%N |}
    /\ (seconds = 2%N \/ seconds = 3%N \/ seconds = 30%N).

(** Calls issued under the wrapper in force. *)
Definition underWrapper : option RetryOptions -> World -> World -> Prop :=
  issuing (fun ctx c => policy c = ctx).

(** Calls issued under the options [opts], whatever wrapper is in force. *)
Definition wrappedBy (opts : RetryOptions) (_ : option RetryOptions)
    : World -> World -> Prop :=
  underWrapper (Some opts).

(** * Sample data

    Concrete remotes, objects and describe results at which the statements
    below are exercised. *)

Definition sampleHub : Org :=
  {| getUsername := Some "devhub@example.com";
     instanceUrl := "https://devhub.example.com";
     accessToken := "00Dtoken" |}.

(** A DevHub that cannot be reached: every call throws [e]. *)
Definition unreachable (e : JsError) : Remote :=
  {| answerQuery := fun _ _ _ => Thrown e;
     answerDescribe := fun _ _ => Thrown e;
     answerUpdate := fun _ _ _ => Thrown e;
     answerDel := fun _ _ _ => Thrown e;
     answerConnRequest := fun _ _ _ _ => Thrown e;
     answerHttpRequest := fun _ _ _ _ => Thrown e;
     answerCreateScratchOrg := fun _ _ _ _ _ _ => Thrown e;
     answerPasswordGenerate := fun _ _ => Thrown e;
     answerAuthInfo := fun _ _ => Thrown e;
     answerRefreshAuth := fun _ => Thrown e;
     answerMaxApiVersion := fun _ => Thrown e |}.

Definition connectionReset : JsError := Error "ECONNRESET".

(** A scratch-org object with nothing but its identifier. *)
Definition scratchOrgWithId (identifier : string) : ScratchOrg :=
  set_orgId (Some identifier) emptyScratchOrg.

(** The batch of the reclamation scenario of the specification. *)
Definition sampleBatch : gmap nat ScratchOrg :=
  <[0 := scratchOrgWithId "00D1"]>
    (<[1 := scratchOrgWithId "00D2xxxxxxxxxxxAAA"]> ∅).

(** The query by which [createScratchOrg] resolves the login URL. *)
Definition loginUrlQuery (user : jsval) : string :=
  "SELECT Id, SignupUsername, LoginUrl FROM ScratchOrgInfo WHERE SignupUsername = '"
  +:+ template user +:+ "'".

Definition passwordError : JsError := Error "Unable to setup password to scratch org".

Definition sampleRow : ScratchOrgInfo.t :=
  {| ScratchOrgInfo.Id := Some "2SR000000000001";
     ScratchOrgInfo.Pooltag__c := Some "core";
     ScratchOrgInfo.CreatedDate := Some "2021-06-01T00:00:00.000+0000";
     ScratchOrgInfo.ScratchOrg := Some "00D1";
     ScratchOrgInfo.ExpirationDate := Some "2021-06-08";
     ScratchOrgInfo.SignupUsername := Some "test-1@example.com";
     ScratchOrgInfo.SignupEmail := Some "admin@example.com";
     ScratchOrgInfo.Password__c := Some "s3cret";
     ScratchOrgInfo.Allocation_status__c := Some "Available";
     ScratchOrgInfo.LoginUrl := Some "https://test.salesforce.com";
     ScratchOrgInfo.SfdxAuthUrl__c := Some "force://token@test.salesforce.com" |}.

(** A DevHub that creates the org and answers the login-URL query, while
    the password generation gives no password and the auth-url lookup does
    what [auth] says. *)
Definition noPasswordRemote (auth : Outcome string) : Remote :=
  {| answerQuery := fun _ _ _ => Returned {| records := [sampleRow]; totalSize := 1 |};
     answerDescribe := fun _ _ => Thrown connectionReset;
     answerUpdate := fun _ _ _ => Thrown connectionReset;
     answerDel := fun _ _ _ => Thrown connectionReset;
     answerConnRequest := fun _ _ _ _ => Thrown connectionReset;
     answerHttpRequest := fun _ _ _ _ => Thrown connectionReset;
     answerCreateScratchOrg := fun _ _ _ _ _ _ =>
       Returned {| created_orgId := Some "00D1";
                   created_username := Some "test-1@example.com" |};
     answerPasswordGenerate := fun _ user =>
       Returned {| pw_username := user; pw_password := None |};
     answerAuthInfo := fun _ _ => auth;
     answerRefreshAuth := fun _ => Returned tt;
     answerMaxApiVersion := fun _ => Returned "51.0" |}.

(** A DevHub whose describe call answers [d]. *)
Definition describing (d : option DescribeSObjectResult) : Remote :=
  {| answerQuery := fun _ _ _ => Thrown connectionReset;
     answerDescribe := fun _ _ => Returned d;
     answerUpdate := fun _ _ _ => Thrown connectionReset;
     answerDel := fun _ _ _ => Thrown connectionReset;
     answerConnRequest := fun _ _ _ _ => Thrown connectionReset;
     answerHttpRequest := fun _ _ _ _ => Thrown connectionReset;
     answerCreateScratchOrg := fun _ _ _ _ _ _ => Thrown connectionReset;
     answerPasswordGenerate := fun _ _ => Thrown connectionReset;
     answerAuthInfo := fun _ _ => Thrown connectionReset;
     answerRefreshAuth := fun _ => Thrown connectionReset;
     answerMaxApiVersion := fun _ => Thrown connectionReset |}.

Definition expectedPicklist : list PicklistEntry :=
  [ {| value := "In Progress"; active := true |};
    {| value := "Available"; active := true |};
    {| value := "Allocate"; active := true |};
    {| value := "Assigned"; active := true |} ].

(** A schema that meets the prerequisites. *)
Definition compatibleSchema : DescribeSObjectResult :=
  {| fields :=
       [ {| name := "Id"; picklistValues := [] |};
         {| name := "SfdxAuthUrl__c"; picklistValues := [] |};
         {| name := "Allocation_status__c"; picklistValues := expectedPicklist |} ] |}.

(** The same schema with a fifth, retired picklist entry. *)
Definition schemaWithRetiredValue : DescribeSObjectResult :=
  {| fields :=
       [ {| name := "Id"; picklistValues := [] |};
         {| name := "SfdxAuthUrl__c"; picklistValues := [] |};
         {| name := "Allocation_status__c";
            picklistValues :=
              expectedPicklist ++ [ {| value := "Return"; active := false |} ] |} ] |}.

(** A pool row with a given allocation status. *)
Definition poolRow (identifier : string) (allocationStatus : jsval) : ScratchOrgInfo.t :=
  {| ScratchOrgInfo.Id := Some ("2SR" +:+ identifier);
     ScratchOrgInfo.Pooltag__c := Some "core";
     ScratchOrgInfo.CreatedDate := Some "2021-06-01T00:00:00.000+0000";
     ScratchOrgInfo.ScratchOrg := Some identifier;
     ScratchOrgInfo.ExpirationDate := Some "2021-06-08";
     ScratchOrgInfo.SignupUsername := Some ("test-" +:+ identifier +:+ "@example.com");
     ScratchOrgInfo.SignupEmail := Some "admin@example.com";
     ScratchOrgInfo.Password__c := Some "s3cret";
     ScratchOrgInfo.Allocation_status__c := allocationStatus;
     ScratchOrgInfo.LoginUrl := Some "https://test.salesforce.com";
     ScratchOrgInfo.SfdxAuthUrl__c := None |}.

Definition poolRows : list ScratchOrgInfo.t :=
  [ poolRow "00D1" (Some "Assigned");
    poolRow "00D2" (Some "Available");
    poolRow "00D3" (Some "In Progress");
    poolRow "00D4" None ].

(** A DevHub that answers every query with the four pool rows. *)
Definition poolRemote : Remote :=
  {| answerQuery := fun _ _ _ => Returned {| records := poolRows; totalSize := 4 |};
     answerDescribe := fun _ _ => Returned (Some compatibleSchema);
     answerUpdate := fun _ _ _ => Returned (RecordResult true);
     answerDel := fun _ _ _ => Returned tt;
     answerConnRequest := fun _ _ _ _ => Returned tt;
     answerHttpRequest := fun _ _ _ _ =>
       Returned {| records := poolRows; totalSize := 4 |};
     answerCreateScratchOrg := fun _ _ _ _ _ _ =>
       Returned {| created_orgId := Some "00D1";
                   created_username := Some "test-1@example.com" |};
     answerPasswordGenerate := fun _ user =>
       Returned {| pw_username := user; pw_password := Some "s3cret" |};
     answerAuthInfo := fun _ _ => Returned "force://token@test.salesforce.com";
     answerRefreshAuth := fun _ => Returned tt;
     answerMaxApiVersion := fun _ => Returned "51.0" |}.

(** A compatibility check that finds the new version. *)
Definition newVersionFound (_ : Org) : M unit :=
  modifyWorld (set_isNewVersionCompatible true).

Definition coreListing : PoolListImpl :=
  {| impl_hubOrg := sampleHub; impl_tag := Some "core";
     impl_mypool := Some false; impl_allScratchOrgs := Some true |}.

Definition coreFlags : Flags :=
  {| flag_tag := Some "core"; flag_mypool := None; flag_allscratchorgs := Some true;
     flag_json := Some true; flag_apiversion := None |}.

(** A DevHub whose first [failures] calls are lost and whose describe call
    answers [d] afterwards. *)
Definition flaky (failures : nat) (d : option DescribeSObjectResult) : Remote :=
  {| answerQuery := fun _ _ _ => Thrown connectionReset;
     answerDescribe := fun n _ =>
       if n <? failures then Thrown connectionReset else Returned d;
     answerUpdate := fun _ _ _ => Thrown connectionReset;
     answerDel := fun _ _ _ => Thrown connectionReset;
     answerConnRequest := fun _ _ _ _ => Thrown connectionReset;
     answerHttpRequest := fun _ _ _ _ => Thrown connectionReset;
     answerCreateScratchOrg := fun _ _ _ _ _ _ => Thrown connectionReset;
     answerPasswordGenerate := fun _ _ => Thrown connectionReset;
     answerAuthInfo := fun _ _ => Thrown connectionReset;
     answerRefreshAuth := fun _ => Thrown connectionReset;
     answerMaxApiVersion := fun _ => Thrown connectionReset |}.

(** The compatible schema with the auth-url field listed last. *)
Definition schemaWithAuthUrlLast : DescribeSObjectResult :=
  {| fields :=
       [ {| name := "Id"; picklistValues := [] |};
         {| name := "Allocation_status__c"; picklistValues := expectedPicklist |};
         {| name := "SfdxAuthUrl__c"; picklistValues := [] |} ] |}.

(** A DevHub that answers every query and request with no row. *)
Definition emptyPool : Remote :=
  {| answerQuery := fun _ _ _ => Returned {| records := []; totalSize := 0 |};
     answerDescribe := fun _ _ => Returned (Some compatibleSchema);
     answerUpdate := fun _ _ _ => Returned (RecordResult true);
     answerDel := fun _ _ _ => Returned tt;
     answerConnRequest := fun _ _ _ _ => Returned tt;
     answerHttpRequest := fun _ _ _ _ => Returned {| records := []; totalSize := 0 |};
     answerCreateScratchOrg := fun _ _ _ _ _ _ =>
       Returned {| created_orgId := Some "00D1";
                   created_username := Some "test-1@example.com" |};
     answerPasswordGenerate := fun _ user =>
       Returned {| pw_username := user; pw_password := Some "s3cret" |};
     answerAuthInfo := fun _ _ => Returned "force://token@test.salesforce.com";
     answerRefreshAuth := fun _ => Returned tt;
     answerMaxApiVersion := fun _ => Returned "51.0" |}.

(** * Reasoning principles *)

(** ** Strings *)

Lemma append_cons (ch : ascii) (a b : string) :
  String ch a +:+ b = String ch (a +:+ b).
Proof. reflexivity. Qed.

Lemma append_empty_l (b : string) : "" +:+ b = b.
Proof. reflexivity. Qed.

Lemma append_assoc (a b c : string) : (a +:+ b) +:+ c = a +:+ (b +:+ c).
Proof.
  induction a as [|ch a IH]; [reflexivity|].
  now rewrite !append_cons, IH.
Qed.

Lemma append_nil_r (a : string) : a +:+ "" = a.
Proof.
  induction a as [|ch a IH]; [reflexivity|].
  now rewrite append_cons, IH.
Qed.

Lemma occursIn_append_l (s q r : string) : occursIn s q -> occursIn s (q +:+ r).
Proof.
  intros (b & a & ->). exists b, (a +:+ r).
  now rewrite !append_assoc.
Qed.

Lemma occursIn_append_r (s q r : string) : occursIn s q -> occursIn s (r +:+ q).
Proof.
  intros (b & a & ->). exists (r +:+ b), a.
  now rewrite !append_assoc.
Qed.

Lemma occursIn_here (s r : string) : occursIn s (s +:+ r).
Proof. exists "", r. reflexivity. Qed.

Lemma substring_start (n : nat) (s : string) :
  startOf (String.substring 0 n s) s
  /\ String.length (String.substring 0 n s) = Nat.min n (String.length s).
Proof.
  revert s. induction n as [|n IH]; intros s.
  - destruct s; cbn; split; eauto; now eexists.
  - destruct s as [|c s]; cbn.
    + split; [now exists ""|reflexivity].
    + destruct (IH s) as [[rest Hrest] Hlen]. split.
      * exists rest. now rewrite append_cons, <- Hrest.
      * now rewrite Hlen.
Qed.

Lemma slice_15_idempotent (s : string) : slice 0 15 (slice 0 15 s) = slice 0 15 s.
Proof.
  unfold slice. cbn [Nat.sub].
  generalize 15. intros n. revert s.
  induction n as [|n IH]; intros s.
  - destruct s; reflexivity.
  - destruct s as [|c s]; cbn; [reflexivity|]. now rewrite IH.
Qed.

(** ** Outcomes of the monad operations *)

Lemma bind_returned {A B} (m : M A) (k : A -> M B) ctx w a w1 :
  m ctx w = (Returned a, w1) -> bind m k ctx w = k a ctx w1.
Proof. intros H. unfold bind. now rewrite H. Qed.

Lemma bind_thrown {A B} (m : M A) (k : A -> M B) ctx w e w1 :
  m ctx w = (Thrown e, w1) -> bind m k ctx w = (Thrown e, w1).
Proof. intros H. unfold bind. now rewrite H. Qed.

Lemma retry_returned {A} (fn : M A) opts ctx w a w1 :
  fn (Some opts) w = (Returned a, w1) -> retry fn opts ctx w = (Returned a, w1).
Proof.
  intros H. unfold retry. destruct (retries opts); cbn; now rewrite H.
Qed.

(** What the wrapper rejects with is the error of one of the runs. *)
Lemma mainErrorFrom_In counts main mainCount errors :
  mainErrorFrom counts main mainCount errors = main
  \/ In (mainErrorFrom counts main mainCount errors) errors.
Proof.
  revert counts main mainCount.
  induction errors as [|e rest IH]; intros counts main mainCount; cbn.
  - now left.
  - destruct (Nat.leb mainCount _).
    + destruct (IH (<[errorMessage e := S (default 0 (counts !! errorMessage e))]> counts)
                  e (S (default 0 (counts !! errorMessage e)))) as [-> | H]; auto.
    + destruct (IH (<[errorMessage e := S (default 0 (counts !! errorMessage e))]> counts)
                  main mainCount) as [-> | H]; auto.
Qed.

Lemma mainError_In first errors : In first errors -> In (mainError first errors) errors.
Proof.
  intros H. unfold mainError.
  destruct (mainErrorFrom_In ∅ first 0 errors) as [-> | H']; assumption.
Qed.

(** When every run throws the same error, that error is the one rejected with. *)
Lemma mainError_same e errors :
  Forall (eq e) errors -> mainError e errors = e.
Proof.
  intros H. destruct errors as [|e0 rest].
  - reflexivity.
  - assert (Hin : In (mainError e (e0 :: rest)) (e0 :: rest)).
    { apply mainError_In. inversion H; subst. now left. }
    rewrite Forall_forall in H. symmetry. apply H.
    now apply list_elem_of_In.
Qed.

(** ** Relations between the world before and after a method *)

Section Respects.

Variable R : option RetryOptions -> World -> World -> Prop.
Hypothesis R_refl : forall ctx w, R ctx w w.
Hypothesis R_trans : forall ctx w1 w2 w3, R ctx w1 w2 -> R ctx w2 w3 -> R ctx w1 w3.

Lemma respects_ret {A} (a : A) : respects R (ret a).
Proof. intros ctx w. apply R_refl. Qed.

Lemma respects_throw {A} e : respects R (@throw A e).
Proof. intros ctx w. apply R_refl. Qed.

Lemma respects_getWorld : respects R getWorld.
Proof. intros ctx w. apply R_refl. Qed.

Lemma respects_readObject ref : respects R (readObject ref).
Proof. intros ctx w. apply R_refl. Qed.

Lemma respects_bind {A B} (m : M A) (k : A -> M B) :
  respects R m -> (forall a, respects R (k a)) -> respects R (bind m k).
Proof.
  intros Hm Hk ctx w. unfold bind.
  specialize (Hm ctx w). destruct (m ctx w) as [[a|e] w1]; cbn in *.
  - eapply R_trans; [exact Hm|apply Hk].
  - exact Hm.
Qed.

Lemma respects_tryCatch {A} (m : M A) (h : JsError -> M A) :
  respects R m -> (forall e, respects R (h e)) -> respects R (tryCatch m h).
Proof.
  intros Hm Hh ctx w. unfold tryCatch.
  specialize (Hm ctx w). destruct (m ctx w) as [[a|e] w1]; cbn in *.
  - exact Hm.
  - eapply R_trans; [exact Hm|apply Hh].
Qed.

Lemma respects_runAttempt {A} (fn : M A) opts n errors w :
  respects R fn -> R (Some opts) w (snd (runAttempt n errors fn opts w)).
Proof.
  intros Hfn. revert errors w.
  induction n as [|n IH]; intros errors w; cbn;
    specialize (Hfn (Some opts) w);
    destruct (fn (Some opts) w) as [[a|e] w1]; cbn in *; try exact Hfn.
  eapply R_trans; [exact Hfn|apply IH].
Qed.

End Respects.

(** A retry wrapper respects, whatever it runs under, what its body respects
    under the wrapper's options. *)
Lemma respects_retry {A} (R : option RetryOptions -> World -> World -> Prop)
    (fn : M A) opts :
  (forall ctx w, R ctx w w) ->
  (forall ctx w1 w2 w3, R ctx w1 w2 -> R ctx w2 w3 -> R ctx w1 w3) ->
  respects R fn -> respects (fun _ => R (Some opts)) (retry fn opts).
Proof.
  intros Hrefl Htrans Hfn ctx w. unfold retry.
  now apply respects_runAttempt.
Qed.

Lemma issuing_refl Q ctx w : issuing Q ctx w w.
Proof. exists []. split; [now rewrite app_nil_r|constructor]. Qed.

Lemma issuing_trans Q ctx w1 w2 w3 :
  issuing Q ctx w1 w2 -> issuing Q ctx w2 w3 -> issuing Q ctx w1 w3.
Proof.
  intros (cs1 & H1 & F1) (cs2 & H2 & F2). exists (cs1 ++ cs2). split.
  - now rewrite H2, H1, app_assoc.
  - now apply Forall_app.
Qed.

Lemma issuing_issue {A} (Q : option RetryOptions -> Call -> Prop) req
    (answer : nat -> Outcome A) :
  (forall ctx, Q ctx {| request := req; policy := ctx |}) ->
  respects (issuing Q) (issue req answer).
Proof.
  intros HQ ctx w. exists [{| request := req; policy := ctx |}].
  split; [reflexivity|]. constructor; [apply HQ|constructor].
Qed.

Lemma issuing_modifyWorld Q (f : World -> World) :
  (forall w, calls (f w) = calls w) -> respects (issuing Q) (modifyWorld f).
Proof.
  intros Hf ctx w. exists []. cbn. split; [now rewrite Hf, app_nil_r|constructor].
Qed.

Lemma keeping_refl {X} (f : World -> X) ctx w : keeping f ctx w w.
Proof. reflexivity. Qed.

Lemma keeping_trans {X} (f : World -> X) ctx w1 w2 w3 :
  keeping f ctx w1 w2 -> keeping f ctx w2 w3 -> keeping f ctx w1 w3.
Proof. unfold keeping. congruence. Qed.

Lemma keeping_issue {A X} (f : World -> X) req (answer : nat -> Outcome A) :
  (forall c w, f (recordCall c w) = f w) -> respects (keeping f) (issue req answer).
Proof. intros Hf ctx w. apply Hf. Qed.

Lemma runAttempt_returned {A} (fn : M A) opts n errors w a w' :
  runAttempt n errors fn opts w = (Returned a, w') ->
  exists w0, fn (Some opts) w0 = (Returned a, w').
Proof.
  revert errors w. induction n as [|n IH]; intros errors w; cbn;
    destruct (fn (Some opts) w) as [[a0|e] w1] eqn:Hfn; intros H;
    try discriminate; try (inversion H; subst; now exists w).
  now apply IH in H.
Qed.

(** When every run of the body throws [e], the wrapper rejects with [e]. *)
Lemma runAttempt_always_thrown {A} (fn : M A) opts e n errors w :
  (forall w0, fst (fn (Some opts) w0) = Thrown e) ->
  Forall (eq e) errors ->
  fst (runAttempt n errors fn opts w) = Thrown e.
Proof.
  intros Hfn. revert errors w. induction n as [|n IH]; intros errors w Herrs; cbn;
    pose proof (Hfn w) as Hw; destruct (fn (Some opts) w) as [[a0|e0] w1];
    cbn in Hw; try discriminate; inversion Hw; subst.
  - cbn. f_equal. apply mainError_same. apply Forall_app. split; auto.
  - apply IH. apply Forall_app. split; auto.
Qed.

Lemma retry_always_thrown {A} (fn : M A) opts e ctx w :
  (forall w0, fst (fn (Some opts) w0) = Thrown e) ->
  fst (retry fn opts ctx w) = Thrown e.
Proof. intros H. unfold retry. apply runAttempt_always_thrown; auto. Qed.

(** A body that issues the one call [c] on every run: the wrapper issues
    it at least once and at most [retries + 1] times. *)
Lemma runAttempt_one_call {A} (fn : M A) opts c n errors w :
  (forall w0, calls (snd (fn (Some opts) w0)) = calls w0 ++ [c]) ->
  exists k, 1 <= k <= S n
    /\ calls (snd (runAttempt n errors fn opts w)) = calls w ++ replicate k c.
Proof.
  intros Hfn. revert errors w. induction n as [|n IH]; intros errors w; cbn;
    pose proof (Hfn w) as Hw; destruct (fn (Some opts) w) as [[a|e] w1]; cbn in *;
    try (exists 1; split; [lia|assumption]).
  destruct (IH (errors ++ [e]) w1) as (k & Hk & Hcalls).
  exists (S k). split; [lia|].
  rewrite Hcalls, Hw, <- app_assoc. reflexivity.
Qed.

Lemma retry_one_call {A} (fn : M A) opts c ctx w :
  (forall w0, calls (snd (fn (Some opts) w0)) = calls w0 ++ [c]) ->
  exists k, 1 <= k <= S (retries opts)
    /\ calls (snd (retry fn opts ctx w)) = calls w ++ replicate k c.
Proof. intros H. unfold retry. now apply runAttempt_one_call. Qed.

(** * The specification's statements *)

(** ** Status derivation (C1) *)

Lemma strictEq_true (v : jsval) (lit : string) :
  strictEq v lit = true <-> v = Some lit.
Proof.
  destruct v as [s|]; cbn; [|split; discriminate].
  rewrite String.eqb_eq. split; congruence.
Qed.

Lemma truthy_false (v : jsval) : truthy v = false <-> v = None \/ v = Some "".
Proof.
  destruct v as [s|]; cbn.
  - rewrite negb_false_iff, String.eqb_eq. split; [intros ->; now right|].
    intros [H|H]; congruence.
  - split; auto.
Qed.

Lemma soDetailOf_status newVersionCompatible element :
  status (soDetailOf newVersionCompatible element)
  = Some (derivedStatus newVersionCompatible (ScratchOrgInfo.Allocation_status__c element)).
Proof.
  unfold soDetailOf, derivedStatus. cbn [status]. f_equal.
  set (v := ScratchOrgInfo.Allocation_status__c element).
  destruct (strictEq v "Assigned") eqn:Hassigned.
  - apply strictEq_true in Hassigned. now rewrite decide_True.
  - rewrite decide_False by (rewrite <- strictEq_true; congruence).
    destruct newVersionCompatible; cbn.
    + rewrite orb_false_r. destruct (strictEq v "Available") eqn:Havailable.
      * apply strictEq_true in Havailable. rewrite decide_True; auto.
      * rewrite decide_False; [reflexivity|].
        intros [[_ H]|[H _]]; [|discriminate].
        apply strictEq_true in H. congruence.
    + destruct (truthy v) eqn:Htruthy; cbn.
      * rewrite decide_False; [reflexivity|].
        intros [[H _]|[_ H]]; [discriminate|].
        apply truthy_false in H. congruence.
      * apply truthy_false in Htruthy. rewrite decide_True; auto.
Qed.

Lemma execute_returns remote check this ctx w l w' :
  execute remote check this ctx w = (Returned l, w') ->
  exists results n,
    answerQuery remote n false
      (scratchOrgsByTagQuery (impl_tag this) (impl_hubOrg this)
         (truthyFlag (impl_mypool this)) (negb (truthyFlag (impl_allScratchOrgs this))))
    = Returned results
    /\ l = map (soDetailOf (isNewVersionCompatible w')) (records results).
Proof.
  unfold execute, bind.
  destruct (check (impl_hubOrg this) ctx w) as [[[]|e] w1]; [|discriminate].
  destruct (getScratchOrgsByTag _ _ _ _ _ ctx w1) as [[results|e] w2] eqn:Hq;
    [|discriminate].
  cbn. intros H. inversion H; subst. clear H.
  unfold getScratchOrgsByTag, retry in Hq.
  apply runAttempt_returned in Hq as (w0 & Hq).
  unfold issue in Hq. inversion Hq; subst.
  exists results, (length (calls w0)). split; [assumption|reflexivity].
Qed.

(** C1. For every record that the pool listing has queried, the status of
    the scratch org it returns is derived from the allocation status as the
    specification says: [Assigned] gives [In use]; [Available] in the new
    mode, or an empty or absent value in the legacy mode, gives [Available];
    everything else gives [Provisioning in progress]. *)
Theorem execute_status_derivation remote check this ctx w l w' :
  execute remote check this ctx w = (Returned l, w') ->
  exists results n,
    answerQuery remote n false
      (scratchOrgsByTagQuery (impl_tag this) (impl_hubOrg this)
         (truthyFlag (impl_mypool this)) (negb (truthyFlag (impl_allScratchOrgs this))))
    = Returned results
    /\ Forall2
         (fun element so =>
            status so
            = Some (derivedStatus (isNewVersionCompatible w')
                      (ScratchOrgInfo.Allocation_status__c element)))
         (records results) l.
Proof.
  intros H. apply execute_returns in H as (results & n & Hanswer & ->).
  exists results, n. split; [assumption|].
  induction (records results) as [|element rest IH]; cbn; constructor; auto.
  apply soDetailOf_status.
Qed.

Lemma bind_inv_returned {A B} (m : M A) (k : A -> M B) ctx w b w' :
  bind m k ctx w = (Returned b, w') ->
  exists a w1, m ctx w = (Returned a, w1) /\ k a ctx w1 = (Returned b, w').
Proof.
  unfold bind. destruct (m ctx w) as [[a|e] w1]; [|discriminate].
  intros H. now exists a, w1.
Qed.

(** ** The best-effort status update (C7) *)

(** C7. Whatever the update call does, [setScratchOrgInfo] returns a
    boolean and never throws: [false] when the update threw, the success
    flag of the result otherwise ([true] for an array of results). The
    update is issued once: since the body of the wrapper never throws,
    nothing is retried. *)
Theorem setScratchOrgInfo_never_throws remote soInfo hubOrg ctx w :
  exists flag : bool,
    setScratchOrgInfo remote soInfo hubOrg ctx w
    = (Returned flag,
       recordCall
         {| request := ReqUpdate "ScratchOrgInfo" soInfo;
            policy := Some {| retries := 3; minTimeout := 3000%N |} |} w)
    /\ match answerUpdate remote (length (calls w)) "ScratchOrgInfo" soInfo with
       | Thrown _ => flag = false
       | Returned (RecordResult success) => flag = success
       | Returned (RecordResults _) => flag = true
       end.
Proof.
  unfold setScratchOrgInfo, retry, tryCatch, bind, issue, ret. cbn.
  destruct (answerUpdate remote (length (calls w)) "ScratchOrgInfo" soInfo)
    as [[success|successes]|e]; cbn; eauto.
Qed.

(** ** The listing and its counts (C10) *)

Lemma derivedStatus_cases newVersionCompatible v :
  derivedStatus newVersionCompatible v = "In use"
  \/ derivedStatus newVersionCompatible v = "Available"
  \/ derivedStatus newVersionCompatible v = "Provisioning in progress".
Proof. unfold derivedStatus. repeat case_decide; auto. Qed.

Lemma soDetailOf_knownStatus newVersionCompatible element :
  knownStatus (soDetailOf newVersionCompatible element).
Proof.
  unfold knownStatus. rewrite soDetailOf_status.
  destruct (derivedStatus_cases newVersionCompatible
              (ScratchOrgInfo.Allocation_status__c element)) as [-> | [-> | ->]]; auto.
Qed.

Lemma hasStatus_known literal so s :
  status so = Some s -> hasStatus literal so = String.eqb s literal.
Proof. intros H. unfold hasStatus. now rewrite H. Qed.

(** The three filters of [List.run] split a list of known statuses. *)
Lemma filters_partition (l : list ScratchOrg) :
  Forall knownStatus l ->
  length (List.filter (hasStatus "In use") l)
  + length (List.filter (hasStatus "Available") l)
  + length (List.filter (hasStatus "Provisioning in progress") l)
  = length l.
Proof.
  induction 1 as [|so l Hso _ IH]; [reflexivity|].
  cbn [List.filter].
  destruct Hso as [Hs | [Hs | Hs]];
    rewrite !(hasStatus_known _ _ _ Hs); simpl String.eqb; cbn [length]; lia.
Qed.

(** C10. When the list command returns, every scratch org of its output
    carries one of the three statuses, and the reported total is both the
    sum of the three counts and the number of scratch orgs listed. *)
Theorem run_total_is_sum_of_counts remote check hubOrg flags ctx w output w' :
  run remote check hubOrg flags ctx w = (Returned output, w') ->
  Forall knownStatus (scratchOrgDetails output)
  /\ total output = inuse output + unused output + inprovision output
  /\ total output = length (scratchOrgDetails output)
  /\ inuse output = length (List.filter (hasStatus "In use") (scratchOrgDetails output))
  /\ unused output = length (List.filter (hasStatus "Available") (scratchOrgDetails output))
  /\ inprovision output
     = length (List.filter (hasStatus "Provisioning in progress") (scratchOrgDetails output)).
Proof.
  unfold run. intros H.
  apply bind_inv_returned in H as (? & w1 & _ & H).
  apply bind_inv_returned in H as (? & w2 & _ & H).
  apply bind_inv_returned in H as (l & w3 & Hexec & H).
  apply execute_returns in Hexec as (results & n & _ & ->).
  unfold ret in H. inversion H; subst; clear H. cbn.
  match goal with |- Forall knownStatus ?l /\ _ => set (listed := l) end.
  assert (Hknown : Forall knownStatus listed).
  { subst listed. destruct (_ && _).
    - rewrite Forall_map. rewrite Forall_map.
      apply Forall_forall. intros element _. apply soDetailOf_knownStatus.
    - rewrite Forall_map.
      apply Forall_forall. intros element _. apply soDetailOf_knownStatus. }
  repeat split; auto. now apply filters_partition.
Qed.

(** ** The query of the pool listing (C4) *)

Lemma scratchOrgsByTagQuery_parts tag hubOrg isMyPool unAssigned :
  scratchOrgsByTagQuery tag hubOrg isMyPool unAssigned
  = selectedColumns +:+ tagFilter tag +:+ activeFilter
    +:+ myPoolFilter hubOrg isMyPool +:+ unassignedFilter unAssigned +:+ oldestFirst.
Proof.
  unfold scratchOrgsByTagQuery, selectedColumns, tagFilter, activeFilter,
    myPoolFilter, unassignedFilter, oldestFirst, ORDER_BY_FILTER.
  destruct tag as [t|], isMyPool, unAssigned;
    rewrite ?append_assoc; reflexivity.
Qed.

(** C4. Every invocation of [getScratchOrgsByTag] issues its query at
    least once, each time with the same text: the selected columns, then the
    filter on the tag (equality when a tag is given, non-null otherwise), then
    [Status = 'Active'], then the creator filter when asked for, then the
    allocation-status filter when only unassigned scratch orgs are asked for,
    and last the ordering by creation date, oldest first. What it returns is
    what the DevHub answered to that query. *)
Theorem getScratchOrgsByTag_query remote tag hubOrg isMyPool unAssigned ctx w :
  let q := scratchOrgsByTagQuery tag hubOrg isMyPool unAssigned in
  let after := getScratchOrgsByTag remote tag hubOrg isMyPool unAssigned ctx w in
  q = selectedColumns +:+ tagFilter tag +:+ activeFilter
      +:+ myPoolFilter hubOrg isMyPool +:+ unassignedFilter unAssigned +:+ oldestFirst
  /\ (exists k, 1 <= k <= 4
      /\ calls (snd after)
         = calls w
           ++ replicate k {| request := ReqQuery false q;
                             policy := Some {| retries := 3; minTimeout := 3000%N |} |})
  /\ (forall results, fst after = Returned results ->
      exists n, answerQuery remote n false q = Returned results).
Proof.
  cbv zeta. split; [apply scratchOrgsByTagQuery_parts|]. split.
  - unfold getScratchOrgsByTag.
    apply (retry_one_call _ {| retries := 3; minTimeout := 3000%N |}).
    intros w0. reflexivity.
  - intros results H. unfold getScratchOrgsByTag, retry in H.
    destruct (runAttempt _ _ _ _ _) as [out w'] eqn:Hrun. cbn in H. subst out.
    apply runAttempt_returned in Hrun as (w0 & Hrun).
    unfold issue in Hrun. inversion Hrun. eauto.
Qed.

(** The filters as parts of the text. *)
Corollary getScratchOrgsByTag_filters tag hubOrg isMyPool unAssigned :
  let q := scratchOrgsByTagQuery tag hubOrg isMyPool unAssigned in
  occursIn (tagFilter tag) q
  /\ occursIn "Status = 'Active'" q
  /\ (unAssigned = true ->
      occursIn
        "( Allocation_status__c ='Available' OR Allocation_status__c = 'In Progress' )" q)
  /\ endsWith "ORDER BY CreatedDate ASC" q.
Proof.
  cbv zeta. rewrite scratchOrgsByTagQuery_parts. repeat split.
  - apply occursIn_append_r. apply occursIn_here.
  - do 2 apply occursIn_append_r. apply occursIn_append_l.
    exists " AND ", " ". reflexivity.
  - intros ->. do 4 apply occursIn_append_r. apply occursIn_append_l.
    exists "AND ", " ". reflexivity.
  - exists (selectedColumns +:+ tagFilter tag +:+ activeFilter
            +:+ myPoolFilter hubOrg isMyPool +:+ unassignedFilter unAssigned +:+ " ").
    rewrite !append_assoc. reflexivity.
Qed.

(** ** Resolving record ids: the caller's objects (C6, C9) *)

Lemma heap_after_write (ref r : nat) (so : ScratchOrg) (w : World) :
  heap (set_heap (<[ref := so]> (heap w)) w) !!! r
  = if decide (ref = r) then so else heap w !!! r.
Proof. cbn. apply lookup_total_insert. Qed.

(** The first loop of [getScratchOrgRecordId] when every object has an
    identifier: it returns the quoted truncated identifiers, issues no call,
    and leaves each object of the list with its identifier truncated. *)
Lemma truncateOrgIds_returns refs ctx w :
  Forall (fun ref => is_Some (orgId (heap w !!! ref))) refs ->
  exists w',
    truncateOrgIds refs ctx w
    = (Returned
         (map (fun ref =>
                 "'" +:+ slice 0 15 (template (orgId (heap w !!! ref))) +:+ "'") refs),
       w')
    /\ calls w' = calls w
    /\ forall r,
         heap w' !!! r
         = if decide (r ∈ refs)
           then set_orgId (slice 0 15 <$> orgId (heap w !!! r)) (heap w !!! r)
           else heap w !!! r.
Proof.
  revert w. induction refs as [|ref rest IH]; intros w Hids.
  - exists w. cbn. split; [reflexivity|]. split; [reflexivity|].
    intros r. rewrite decide_False; [done|]. apply not_elem_of_nil.
  - inversion Hids as [|? ? [id Hid] Hrest]; subst.
    cbn [truncateOrgIds]. unfold bind at 1, readObject at 1. cbn [fst snd].
    rewrite Hid.
    set (so' := set_orgId (Some (slice 0 15 id)) (heap w !!! ref)).
    set (w1 := set_heap (<[ref := so']> (heap w)) w).
    assert (Hw1 : forall r, heap w1 !!! r = if decide (ref = r) then so' else heap w !!! r).
    { intros r. apply heap_after_write. }
    destruct (IH w1) as (w' & Hrun & Hcalls & Hheap).
    { apply Forall_forall. intros r Hr. rewrite Hw1. case_decide.
      - subst so'. cbn. eauto.
      - rewrite Forall_forall in Hrest. now apply Hrest. }
    exists w'. split; [|split].
    + unfold bind, writeObject, modifyWorld, readObject. cbn [fst snd].
      fold w1. rewrite Hw1. rewrite decide_True by reflexivity.
      unfold bind in Hrun. rewrite Hrun. unfold ret. cbn [map].
      assert (E1 : template (orgId so') = slice 0 15 (template (orgId (heap w !!! ref)))).
      { subst so'. rewrite Hid. reflexivity. }
      assert (E2 : map (fun r => "'" +:+ slice 0 15 (template (orgId (heap w1 !!! r))) +:+ "'") rest
                   = map (fun r => "'" +:+ slice 0 15 (template (orgId (heap w !!! r))) +:+ "'") rest).
      { apply map_ext_in. intros r _. rewrite Hw1. case_decide; [|reflexivity].
        subst r so'. rewrite Hid. cbn [orgId set_orgId template].
        now rewrite slice_15_idempotent. }
      now rewrite E1, E2.
    + rewrite Hcalls. reflexivity.
    + intros r. rewrite Hheap, !Hw1.
      destruct (decide (ref = r)) as [->|Hne].
      * rewrite (decide_True (P := r ∈ r :: rest)) by apply list_elem_of_here.
        rewrite Hid. subst so'. case_decide; [|reflexivity].
        unfold set_orgId. cbn [orgId fmap option_fmap option_map tag recordId loginURL
          signupEmail username alias password expityDate status sfdxAuthUrl].
        now rewrite slice_15_idempotent.
      * destruct (decide (r ∈ rest)) as [Hin|Hnin].
        -- rewrite decide_True by now apply list_elem_of_further.
           reflexivity.
        -- rewrite decide_False; [reflexivity|].
           intros [?|?]%elem_of_cons; congruence.
Qed.

Lemma respects_at {A} (R : option RetryOptions -> World -> World -> Prop) (m : M A)
    ctx w :
  respects R m -> R ctx w (snd (m ctx w)).
Proof. intros H. apply H. Qed.

(** Steps through a method made of [bind], [ret], [throw] and reads. *)
Ltac respects_steps Rrefl Rtrans :=
  repeat first
    [ apply respects_ret; exact Rrefl
    | apply respects_throw; exact Rrefl
    | apply respects_readObject; exact Rrefl
    | apply respects_getWorld; exact Rrefl
    | apply respects_bind; [exact Rtrans| |intros ?] ].

Section HeapRel.

Variable P : nat -> ScratchOrg -> ScratchOrg -> Prop.
Hypothesis P_refl : forall r so, P r so so.
Hypothesis P_trans : forall r so1 so2 so3, P r so1 so2 -> P r so2 so3 -> P r so1 so3.

Lemma heapRel_refl ctx w : heapRel P ctx w w.
Proof. intros r. apply P_refl. Qed.

Lemma heapRel_trans ctx w1 w2 w3 :
  heapRel P ctx w1 w2 -> heapRel P ctx w2 w3 -> heapRel P ctx w1 w3.
Proof. intros H1 H2 r. eapply P_trans; [apply H1|apply H2]. Qed.

Lemma heapRel_issue {A} req (answer : nat -> Outcome A) :
  respects (heapRel P) (issue req answer).
Proof. intros ctx w r. apply P_refl. Qed.

(** Writing back the object read at [ref], changed by [f]. *)
Lemma heapRel_write ctx ref (f : ScratchOrg -> ScratchOrg) w :
  P ref (heap w !!! ref) (f (heap w !!! ref)) ->
  heapRel P ctx w (set_heap (<[ref := f (heap w !!! ref)]> (heap w)) w).
Proof.
  intros Hf r. rewrite heap_after_write. case_decide; [now subst|apply P_refl].
Qed.

Lemma truncateOrgIds_heapRel refs :
  (forall ref so v, ref ∈ refs -> P ref so (set_orgId v so)) ->
  respects (heapRel P) (truncateOrgIds refs).
Proof.
  induction refs as [|ref rest IH]; intros Hset.
  - apply respects_ret. exact heapRel_refl.
  - intros ctx w. cbn [truncateOrgIds]. unfold bind at 1, readObject at 1.
    cbn [fst snd]. destruct (orgId (heap w !!! ref)) as [id|].
    + unfold bind at 1, writeObject, modifyWorld. cbn [fst snd].
      eapply heapRel_trans.
      * apply (heapRel_write ctx ref (set_orgId (Some (slice 0 15 id)))).
        apply Hset. apply list_elem_of_here.
      * apply respects_at. respects_steps heapRel_refl heapRel_trans.
        apply IH. intros r so0 v Hr. apply Hset. now apply list_elem_of_further.
    + apply heapRel_refl.
Qed.

Lemma assignRecordIds_heapRel resultAsObject refs :
  (forall ref so v, ref ∈ refs -> P ref so (set_recordId v so)) ->
  respects (heapRel P) (assignRecordIds resultAsObject refs).
Proof.
  induction refs as [|ref rest IH]; intros Hset.
  - apply respects_ret. exact heapRel_refl.
  - intros ctx w. cbn [assignRecordIds]. unfold bind at 1, readObject at 1.
    cbn [fst snd].
    destruct (resultAsObject !! template (orgId (heap w !!! ref))) as [row|].
    + unfold bind at 1, writeObject, modifyWorld. cbn [fst snd].
      eapply heapRel_trans.
      * apply (heapRel_write ctx ref (set_recordId (ScratchOrgInfo.Id row))).
        apply Hset. apply list_elem_of_here.
      * apply respects_at, IH.
        intros r so0 v Hr. apply Hset. now apply list_elem_of_further.
    + apply heapRel_refl.
Qed.

(** What [getScratchOrgRecordId] does to the heap consists of writes of
    [orgId] and [recordId] to objects of the list it was given. *)
Lemma getScratchOrgRecordId_heapRel remote scratchOrgs hubOrg :
  (forall ref so v, ref ∈ default [] scratchOrgs -> P ref so (set_orgId v so)) ->
  (forall ref so v, ref ∈ default [] scratchOrgs -> P ref so (set_recordId v so)) ->
  respects (heapRel P) (getScratchOrgRecordId remote scratchOrgs hubOrg).
Proof.
  intros Horg Hrec. unfold getScratchOrgRecordId.
  destruct scratchOrgs as [[|ref rest]|];
    try (apply respects_ret; exact heapRel_refl).
  cbn [default] in *.
  apply respects_bind; [exact heapRel_trans|now apply truncateOrgIds_heapRel|].
  intros quoted.
  apply (respects_retry (heapRel P)); [exact heapRel_refl|exact heapRel_trans|].
  apply respects_bind; [exact heapRel_trans|apply heapRel_issue|].
  intros results.
  apply respects_bind; [exact heapRel_trans|now apply assignRecordIds_heapRel|].
  intros []. apply respects_ret. exact heapRel_refl.
Qed.

End HeapRel.

Lemma assignRecordIds_keeps_calls resultAsObject refs ctx w :
  calls (snd (assignRecordIds resultAsObject refs ctx w)) = calls w.
Proof.
  revert w. induction refs as [|ref rest IH]; intros w; [reflexivity|].
  cbn [assignRecordIds]. unfold bind at 1, readObject at 1. cbn [fst snd].
  destruct (resultAsObject !! template (orgId (heap w !!! ref))); [|reflexivity].
  unfold bind, writeObject, modifyWorld. cbn [fst snd]. now rewrite IH.
Qed.

(** C6. For a non-empty batch whose scratch orgs all carry an identifier,
    the record-id resolution issues its query at least once, and the
    identifiers placed in it are the first 15 characters of the identifiers of
    the batch (a shorter identifier is placed whole). *)
Theorem getScratchOrgRecordId_truncates remote refs hubOrg ctx w ids :
  refs <> [] ->
  Forall2 (fun ref id => orgId (heap w !!! ref) = Some id) refs ids ->
  exists truncated k,
    Forall2
      (fun id t =>
         t = slice 0 15 id /\ startOf t id
         /\ String.length t = Nat.min 15 (String.length id))
      ids truncated
    /\ 1 <= k <= 4
    /\ calls (snd (getScratchOrgRecordId remote (Some refs) hubOrg ctx w))
       = calls w
         ++ replicate k
              {| request := ReqQuery false (recordIdQuery truncated);
                 policy := Some {| retries := 3; minTimeout := 3000%N |} |}.
Proof.
  intros Hne Hids. exists (map (slice 0 15) ids).
  assert (Hsome : Forall (fun ref => is_Some (orgId (heap w !!! ref))) refs).
  { clear Hne. induction Hids as [|ref id refs' ids' Hid _ IH]; constructor;
      [rewrite Hid; eauto|assumption]. }
  destruct (truncateOrgIds_returns refs ctx w Hsome) as (w1 & Hrun & Hcalls & _).
  assert (Hquoted :
    map (fun ref => "'" +:+ slice 0 15 (template (orgId (heap w !!! ref))) +:+ "'") refs
    = map (fun identifier => "'" +:+ identifier +:+ "'") (map (slice 0 15) ids)).
  { clear -Hids. induction Hids as [|ref id refs ids Hid _ IH]; [reflexivity|].
    cbn [map]. now rewrite Hid, IH. }
  rewrite Hquoted in Hrun.
  unfold getScratchOrgRecordId. destruct refs as [|ref rest]; [congruence|].
  rewrite (bind_returned _ _ _ _ _ _ Hrun).
  edestruct (retry_one_call
               (results <- issue (ReqQuery false (recordIdQuery (map (slice 0 15) ids)))
                             (fun n => answerQuery remote n false
                                         (recordIdQuery (map (slice 0 15) ids))) ;;
                assignRecordIds
                  (arrayToObject (records results) ScratchOrgInfo.ScratchOrg)
                  (ref :: rest) ;;;
                ret (Some results))%js
               {| retries := 3; minTimeout := 3000%N |}
               {| request := ReqQuery false (recordIdQuery (map (slice 0 15) ids));
                  policy := Some {| retries := 3; minTimeout := 3000%N |} |}
               ctx w1) as (k & Hk & Hk').
  { intros w0. unfold bind at 1, issue. cbn [fst snd].
    destruct (answerQuery remote _ _ _) as [results|e]; [|reflexivity].
    unfold bind.
    pose proof (assignRecordIds_keeps_calls
                  (arrayToObject (records results) ScratchOrgInfo.ScratchOrg)
                  (ref :: rest) (Some {| retries := 3; minTimeout := 3000%N |})
                  (recordCall
                     {| request := ReqQuery false (recordIdQuery (map (slice 0 15) ids));
                        policy := Some {| retries := 3; minTimeout := 3000%N |} |} w0))
      as Hkeep.
    destruct (assignRecordIds _ _ _ _) as [[[]|e] w2]; cbn in *; exact Hkeep. }
  exists k. split; [|split].
  - clear. induction ids as [|id ids IH]; cbn [map]; constructor; auto.
    split; [reflexivity|]. apply substring_start.
  - exact Hk.
  - unfold recordIdQuery in Hk'. unfold recordIdQuery. rewrite Hk', Hcalls.
    reflexivity.
Qed.

(** The scenario of the specification: the batch ["00D1"; "00D2xxxxxxxxxxxAAA"]. *)
Lemma getScratchOrgRecordId_truncates_scenario :
  exists truncated k,
    Forall2
      (fun id t =>
         t = slice 0 15 id /\ startOf t id
         /\ String.length t = Nat.min 15 (String.length id))
      ["00D1"; "00D2xxxxxxxxxxxAAA"] truncated
    /\ 1 <= k <= 4
    /\ calls (snd (getScratchOrgRecordId (unreachable connectionReset) (Some [0; 1])
                     sampleHub None (freshProcess sampleBatch)))
       = calls (freshProcess sampleBatch)
         ++ replicate k
              {| request := ReqQuery false (recordIdQuery truncated);
                 policy := Some {| retries := 3; minTimeout := 3000%N |} |}.
Proof.
  apply (getScratchOrgRecordId_truncates (unreachable connectionReset) [0; 1]
           sampleHub None (freshProcess sampleBatch)
           ["00D1"; "00D2xxxxxxxxxxxAAA"]).
  - discriminate.
  - repeat constructor.
Defined.

Example recordIdQuery_scenario :
  calls (snd (getScratchOrgRecordId (unreachable connectionReset) (Some [0; 1])
                sampleHub None (freshProcess sampleBatch)))
  = replicate 4
      {| request :=
           ReqQuery false
             "SELECT Id, ScratchOrg FROM ScratchOrgInfo WHERE ScratchOrg IN ( '00D1','00D2xxxxxxxxxxx' )";
         policy := Some {| retries := 3; minTimeout := 3000%N |} |}.
Proof. vm_compute. reflexivity. Qed.

Lemma sameExceptIds_refl so : sameExceptIds so so.
Proof. unfold sameExceptIds. repeat split. Qed.

Lemma sameExceptIds_trans so1 so2 so3 :
  sameExceptIds so1 so2 -> sameExceptIds so2 so3 -> sameExceptIds so1 so3.
Proof. unfold sameExceptIds. intuition congruence. Qed.

Lemma untouchedOutside_refl refs r so : untouchedOutside refs r so so.
Proof. now intros _. Qed.

Lemma untouchedOutside_trans refs r so1 so2 so3 :
  untouchedOutside refs r so1 so2 -> untouchedOutside refs r so2 so3 ->
  untouchedOutside refs r so1 so3.
Proof. unfold untouchedOutside. intros H1 H2 Hr. now rewrite H2, H1. Qed.

Lemma sameOrgId_refl r so : sameOrgId r so so.
Proof. reflexivity. Qed.

Lemma sameOrgId_trans r so1 so2 so3 :
  sameOrgId r so1 so2 -> sameOrgId r so2 so3 -> sameOrgId r so1 so3.
Proof. unfold sameOrgId. congruence. Qed.

Lemma assignRecordIds_returned resultAsObject refs ctx w w' :
  assignRecordIds resultAsObject refs ctx w = (Returned tt, w') ->
  forall r, r ∈ refs ->
    exists row,
      resultAsObject !! template (orgId (heap w' !!! r)) = Some row
      /\ recordId (heap w' !!! r) = ScratchOrgInfo.Id row.
Proof.
  revert w. induction refs as [|ref rest IH]; intros w Hrun r Hr.
  - now apply elem_of_nil in Hr.
  - cbn [assignRecordIds] in Hrun. unfold bind at 1, readObject at 1 in Hrun.
    cbn [fst snd] in Hrun.
    destruct (resultAsObject !! template (orgId (heap w !!! ref))) as [row|] eqn:Hrow;
      [|discriminate].
    unfold bind at 1, writeObject, modifyWorld in Hrun. cbn [fst snd] in Hrun.
    destruct (decide (r ∈ rest)) as [Hin|Hnin]; [now apply (IH _ Hrun)|].
    apply elem_of_cons in Hr as [->|Hr]; [|contradiction].
    pose proof (assignRecordIds_heapRel (untouchedOutside rest)
                  (untouchedOutside_refl rest) (untouchedOutside_trans rest)
                  resultAsObject rest ltac:(intros ? ? ? ? ?; contradiction) ctx
                  (set_heap (<[ref := set_recordId (ScratchOrgInfo.Id row) (heap w !!! ref)]>
                               (heap w)) w)
                  ref Hnin) as Hsame.
    rewrite Hrun in Hsame. cbn [snd] in Hsame.
    rewrite heap_after_write, decide_True in Hsame by reflexivity.
    exists row. rewrite Hsame. split; [exact Hrow|reflexivity].
Qed.

(** C9, as the code has it. [getScratchOrgRecordId] works on the caller's
    own objects: whatever the outcome, an object that is not in the list is
    left as it was and every object keeps all its fields other than [orgId]
    and [recordId]; when every scratch org of the list has an identifier, the
    [orgId] of each is replaced by its first 15 characters; and when the
    method returns the query result, the [recordId] of each has been set to
    the [Id] of the row found under that identifier. *)
Theorem getScratchOrgRecordId_updates_in_place remote refs hubOrg ctx w :
  let after := getScratchOrgRecordId remote (Some refs) hubOrg ctx w in
  (forall r, r ∉ refs -> heap (snd after) !!! r = heap w !!! r)
  /\ (forall r, sameExceptIds (heap w !!! r) (heap (snd after) !!! r))
  /\ (Forall (fun ref => is_Some (orgId (heap w !!! ref))) refs ->
      forall r, r ∈ refs ->
        orgId (heap (snd after) !!! r) = slice 0 15 <$> orgId (heap w !!! r))
  /\ (forall results, fst after = Returned (Some results) ->
      forall r, r ∈ refs ->
        exists row,
          arrayToObject (records results) ScratchOrgInfo.ScratchOrg
            !! template (orgId (heap (snd after) !!! r)) = Some row
          /\ recordId (heap (snd after) !!! r) = ScratchOrgInfo.Id row).
Proof.
  cbv zeta. split; [|split; [|split]].
  - intros r Hr.
    apply (getScratchOrgRecordId_heapRel (untouchedOutside refs)
             (untouchedOutside_refl refs) (untouchedOutside_trans refs)
             remote (Some refs) hubOrg
             ltac:(intros ? ? ? ? ?; contradiction)
             ltac:(intros ? ? ? ? ?; contradiction) ctx w r Hr).
  - intros r.
    apply (getScratchOrgRecordId_heapRel (fun _ => sameExceptIds)
             ltac:(intros; apply sameExceptIds_refl)
             ltac:(intros; eapply sameExceptIds_trans; eauto)
             remote (Some refs) hubOrg
             ltac:(intros; unfold sameExceptIds; repeat split)
             ltac:(intros; unfold sameExceptIds; repeat split) ctx w r).
  - intros Hsome r Hr.
    destruct (truncateOrgIds_returns refs ctx w Hsome) as (w1 & Hrun & _ & Hheap).
    unfold getScratchOrgRecordId. destruct refs as [|ref rest].
    { now apply elem_of_nil in Hr. }
    rewrite (bind_returned _ _ _ _ _ _ Hrun).
    match goal with |- context [retry ?fn ?opts ctx w1] =>
      assert (Hkeep : respects (fun _ => heapRel sameOrgId (Some opts)) (retry fn opts))
    end.
    { apply (respects_retry (heapRel sameOrgId));
        [exact (heapRel_refl _ sameOrgId_refl)
        |exact (heapRel_trans _ sameOrgId_trans)|].
      apply respects_bind; [exact (heapRel_trans _ sameOrgId_trans)| |].
      { apply heapRel_issue. exact sameOrgId_refl. }
      intros results.
      apply respects_bind; [exact (heapRel_trans _ sameOrgId_trans)| |].
      { apply assignRecordIds_heapRel;
          [exact sameOrgId_refl|exact sameOrgId_trans|reflexivity]. }
      intros []. apply respects_ret. exact (heapRel_refl _ sameOrgId_refl). }
    rewrite (Hkeep ctx w1 r).
    rewrite Hheap, decide_True by assumption. reflexivity.
  - intros results Hret r Hr.
    unfold getScratchOrgRecordId in *. destruct refs as [|ref rest].
    { now apply elem_of_nil in Hr. }
    destruct (truncateOrgIds (ref :: rest) ctx w) as [[quoted|e] w1] eqn:Htr;
      [|rewrite (bind_thrown _ _ _ _ _ _ Htr) in Hret; discriminate].
    rewrite (bind_returned _ _ _ _ _ _ Htr) in Hret |- *.
    unfold retry in *.
    destruct (runAttempt _ _ _ _ w1) as [out w'] eqn:Hrun.
    cbn [fst snd] in *. subst out.
    apply runAttempt_returned in Hrun as (w0 & Hrun).
    apply bind_inv_returned in Hrun as (results0 & w2 & _ & Hrun).
    apply bind_inv_returned in Hrun as ([] & w3 & Hassign & Hrun).
    unfold ret in Hrun. inversion Hrun; subst.
    now apply (assignRecordIds_returned _ _ _ _ _ Hassign).
Qed.

(** The claim as stated fails: after the call the caller's object carries
    the truncated identifier. *)
Lemma getScratchOrgRecordId_changes_caller_orgId :
  orgId (heap (snd (getScratchOrgRecordId (unreachable connectionReset) (Some [0; 1])
                      sampleHub None (freshProcess sampleBatch))) !!! 1)
  = Some "00D2xxxxxxxxxxx"
  /\ orgId (heap (freshProcess sampleBatch) !!! 1) = Some "00D2xxxxxxxxxxxAAA"
  /\ ~ (forall remote refs hubOrg ctx w r,
          r ∈ refs ->
          orgId (heap (snd (getScratchOrgRecordId remote (Some refs) hubOrg ctx w)) !!! r)
          = orgId (heap w !!! r)).
Proof.
  split; [vm_compute; reflexivity|]. split; [vm_compute; reflexivity|].
  intros H.
  specialize (H (unreachable connectionReset) [0; 1] sampleHub None
                (freshProcess sampleBatch) 1 ltac:(set_solver)).
  vm_compute in H. discriminate.
Qed.

(** ** Provisioning without a password (C5) *)

Lemma length_calls_recordCall c w :
  length (calls (recordCall c w)) = length (calls w) + 1.
Proof. cbn. now rewrite length_app. Qed.

(** C5, as the code has it. In a run of [createScratchOrg] whose password
    step gives no password, no scratch org is returned: the run throws, with
    the error of the auth-url step when that step throws, and with the
    explicit password error when it does not. The auth-url step comes between
    the password step and the test of the password. *)
Theorem createScratchOrg_without_password remote id adminEmail config_file_path
    expiry hubOrg ctx w created results first rest passwordData :
  let n := length (calls w) in
  answerCreateScratchOrg remote n config_file_path (getUsername hubOrg)
    ("SO" +:+ numberToString id) expiry adminEmail = Returned created ->
  answerQuery remote (n + 1) false (loginUrlQuery (created_username created))
  = Returned results ->
  records results = first :: rest ->
  answerPasswordGenerate remote (n + 2) (created_username created)
  = Returned passwordData ->
  truthy (pw_password passwordData) = false ->
  fst (createScratchOrg remote id adminEmail config_file_path expiry hubOrg ctx w)
  = match answerAuthInfo remote (n + 3) (created_username created) with
    | Returned _ => Thrown passwordError
    | Thrown e => Thrown e
    end.
Proof.
  cbv zeta. intros Hcreate Hquery Hrecords Hpassword Hfalsy.
  unfold createScratchOrg, tryCatch, getScratchOrgLoginURL, bind, issue.
  cbn [fst snd username set_loginURL set_password]. rewrite Hcreate.
  rewrite !length_calls_recordCall.
  fold (loginUrlQuery (created_username created)). rewrite Hquery, Hrecords.
  unfold ret. cbv beta iota.
  rewrite !length_calls_recordCall, <- !Nat.add_assoc. cbn [Nat.add].
  rewrite Hpassword.
  destruct (answerAuthInfo remote _ _) as [authUrl|e]; [|reflexivity].
  rewrite Hfalsy. reflexivity.
Qed.

(** A run without password whose auth-url step succeeds. *)
Lemma createScratchOrg_without_password_sample :
  fst (createScratchOrg (noPasswordRemote (Returned "force://token@test.salesforce.com"))
         1 (Some "admin@example.com") "config/project-scratch-def.json" 7 sampleHub
         None (freshProcess ∅))
  = Thrown passwordError.
Proof.
  apply (createScratchOrg_without_password
           (noPasswordRemote (Returned "force://token@test.salesforce.com"))
           1 (Some "admin@example.com") "config/project-scratch-def.json" 7 sampleHub
           None (freshProcess ∅)
           {| created_orgId := Some "00D1"; created_username := Some "test-1@example.com" |}
           {| records := [sampleRow]; totalSize := 1 |} sampleRow []
           {| pw_username := Some "test-1@example.com"; pw_password := None |});
    reflexivity.
Defined.

(** The claim as stated fails: the password step gives no password, yet
    the error that reaches the caller is the one of the auth-url step. *)
Lemma createScratchOrg_password_error_masked :
  answerPasswordGenerate (noPasswordRemote (Thrown (Error "No AuthInfo found"))) 2
    (Some "test-1@example.com")
  = Returned {| pw_username := Some "test-1@example.com"; pw_password := None |}
  /\ createScratchOrg (noPasswordRemote (Thrown (Error "No AuthInfo found")))
       1 (Some "admin@example.com") "config/project-scratch-def.json" 7 sampleHub
       None (freshProcess ∅)
     = (Thrown (Error "No AuthInfo found"),
        {| heap := ∅; isPrerequisiteChecked := false; isPrerequisiteMet := false;
           describeResult := None; isNewVersionCompatible := false;
           calls :=
             [ {| request := ReqCreateScratchOrg "config/project-scratch-def.json"
                               (Some "devhub@example.com") "SO1" 7
                               (Some "admin@example.com");
                  policy := None |};
               {| request := ReqQuery false (loginUrlQuery (Some "test-1@example.com"));
                  policy := None |};
               {| request := ReqPasswordGenerate (Some "test-1@example.com");
                  policy := None |};
               {| request := ReqAuthInfo (Some "test-1@example.com");
                  policy := None |} ] |})
  /\ fst (createScratchOrg (noPasswordRemote (Thrown (Error "No AuthInfo found")))
            1 (Some "admin@example.com") "config/project-scratch-def.json" 7 sampleHub
            None (freshProcess ∅))
     <> Thrown passwordError.
Proof.
  split; [reflexivity|]. split; [vm_compute; reflexivity|].
  vm_compute. discriminate.
Qed.

(** No partial record: a scratch org that [createScratchOrg] returns has
    a password, a login URL as the DevHub gave it, and an auth URL. *)
Lemma createScratchOrg_returns_complete remote id adminEmail config_file_path expiry
    hubOrg ctx w scratchOrg w' :
  createScratchOrg remote id adminEmail config_file_path expiry hubOrg ctx w
  = (Returned scratchOrg, w') ->
  truthy (password scratchOrg) = true
  /\ is_Some (sfdxAuthUrl scratchOrg)
  /\ alias scratchOrg = Some ("SO" +:+ numberToString id)
  /\ length (calls w') = length (calls w) + 4.
Proof.
  unfold createScratchOrg, tryCatch, getScratchOrgLoginURL, bind, issue, throw, ret.
  cbn [fst snd username set_loginURL set_password].
  destruct (answerCreateScratchOrg remote _ _ _ _ _ _) as [created|e]; [|discriminate].
  destruct (answerQuery remote _ _ _) as [results|e]; [|discriminate].
  destruct (records results) as [|first rest]; [discriminate|].
  destruct (answerPasswordGenerate remote _ _) as [passwordData|e]; [|discriminate].
  destruct (answerAuthInfo remote _ _) as [authUrl|e]; [|discriminate].
  destruct (truthy (pw_password passwordData)) eqn:Hpw; [|discriminate].
  cbn [negb]. intros H. inversion H; subst; clear H. cbn.
  repeat split; eauto. rewrite !length_app. cbn. lia.
Qed.

(** ** The prerequisite check: memoisation (C3) *)

(** Once the check has run, an invocation answers from the statics and
    leaves the world as it is: no call is issued. *)
Lemma checkForPrerequisites_memoised remote hubOrg ctx w :
  isPrerequisiteChecked w = true ->
  checkForPrerequisites remote hubOrg ctx w = (memoisedVerdict w, w).
Proof.
  intros H. unfold checkForPrerequisites, bind, getWorld, memoisedVerdict. cbn.
  rewrite H. cbn. destruct (isPrerequisiteMet w); cbn; [reflexivity|].
  destruct (describeResult w); reflexivity.
Qed.

Lemma describeAndScan_returns remote opts w d :
  answerDescribe remote (length (calls w)) "ScratchOrgInfo" = Returned d ->
  describeAndScan remote opts w
  = (Returned match d with
              | Some dr => scanFields (fields dr) false []
              | None => (false, [])
              end,
     set_describeResult d
       (recordCall {| request := ReqDescribe "ScratchOrgInfo"; policy := opts |} w)).
Proof.
  intros H. unfold describeAndScan, bind, issue, modifyWorld, ret. cbn [fst snd].
  rewrite H. destruct d; reflexivity.
Qed.

Lemma describeAndScan_throws remote opts w e :
  answerDescribe remote (length (calls w)) "ScratchOrgInfo" = Thrown e ->
  describeAndScan remote opts w
  = (Thrown e,
     recordCall {| request := ReqDescribe "ScratchOrgInfo"; policy := opts |} w).
Proof.
  intros H. unfold describeAndScan, bind, issue. cbn [fst snd]. now rewrite H.
Qed.

(** The first invocation when its describe call returns at once. *)
Lemma checkForPrerequisites_first remote hubOrg ctx w d :
  isPrerequisiteChecked w = false ->
  answerDescribe remote (length (calls w)) "ScratchOrgInfo" = Returned d ->
  exists w',
    checkForPrerequisites remote hubOrg ctx w = (memoisedVerdict w', w')
    /\ isPrerequisiteChecked w' = true
    /\ calls w' = calls w ++ [describeCall]
    /\ describeResult w' = d
    /\ heap w' = heap w
    /\ isPrerequisiteMet w'
       = isPrerequisiteMet w
         || (let '(sfdxAuthUrlFieldExists, availableValues) :=
               match d with
               | Some dr => scanFields (fields dr) false []
               | None => (false, [])
               end in
             sfdxAuthUrlFieldExists
             && Nat.eqb
                  (length (List.filter (fun item => negb (includes availableValues item))
                             expectedValues)) 0).
Proof.
  intros Hunchecked Hd.
  pose proof (retry_returned (describeAndScan remote)
                {| retries := 3; minTimeout := 30000%N |} ctx w _ _
                (describeAndScan_returns remote _ w d Hd)) as Hretry.
  unfold checkForPrerequisites.
  rewrite (bind_returned getWorld _ ctx w w w eq_refl).
  rewrite Hunchecked. cbn [negb].
  unfold bind at 1. rewrite (bind_returned _ _ _ _ _ _ Hretry).
  destruct (match d with Some dr => scanFields (fields dr) false [] | None => (false, []) end)
    as [sfdxAuthUrlFieldExists availableValues].
  unfold bind at 1, modifyWorld at 1. cbn [fst snd].
  destruct (sfdxAuthUrlFieldExists && _) eqn:Hmet.
  - exists (set_isPrerequisiteMet true
              (set_isPrerequisiteChecked true
                 (set_describeResult d (recordCall describeCall w)))).
    split; [|repeat split].
    + reflexivity.
    + cbn. now rewrite orb_true_r.
  - exists (set_isPrerequisiteChecked true
              (set_describeResult d (recordCall describeCall w))).
    split; [|repeat split].
    + unfold ret, bind, getWorld, memoisedVerdict, throw. cbn.
      destruct (isPrerequisiteMet w); cbn; [reflexivity|].
      destruct d; reflexivity.
    + cbn. now rewrite orb_false_r.
Qed.

Lemma checkRepeatedly_memoised remote hubOrg n w :
  isPrerequisiteChecked w = true -> checkRepeatedly remote hubOrg n w = w.
Proof.
  intros H. induction n as [|n IH]; [reflexivity|].
  cbn [checkRepeatedly]. now rewrite checkForPrerequisites_memoised.
Qed.

(** C3, as the code has it. In a process that has not run the check yet
    and whose first describe call returns, any number of invocations (one or
    more) issues exactly that one describe call: the first invocation
    memoises the verdict, and every later invocation answers with the same
    verdict and leaves the world, its list of calls included, as it is. *)
Theorem checkForPrerequisites_describes_once remote hubOrg w d n :
  isPrerequisiteChecked w = false ->
  answerDescribe remote (length (calls w)) "ScratchOrgInfo" = Returned d ->
  1 <= n ->
  let first := checkForPrerequisites remote hubOrg None w in
  checkRepeatedly remote hubOrg n w = snd first
  /\ calls (checkRepeatedly remote hubOrg n w) = calls w ++ [describeCall]
  /\ describeCalls (checkRepeatedly remote hubOrg n w) = describeCalls w + 1
  /\ forall ctx,
       checkForPrerequisites remote hubOrg ctx (snd first) = (fst first, snd first).
Proof.
  intros Hunchecked Hd Hn. cbv zeta.
  destruct (checkForPrerequisites_first remote hubOrg None w d Hunchecked Hd)
    as (w' & Hfirst & Hchecked & Hcalls & _).
  rewrite Hfirst. cbn [fst snd].
  assert (Hrep : checkRepeatedly remote hubOrg n w = w').
  { destruct n as [|n]; [lia|]. cbn [checkRepeatedly]. rewrite Hfirst. cbn [snd].
    now apply checkRepeatedly_memoised. }
  rewrite Hrep. repeat split.
  - exact Hcalls.
  - unfold describeCalls. rewrite Hcalls, List.filter_app, length_app. reflexivity.
  - intros ctx. now apply checkForPrerequisites_memoised.
Qed.

(** A process whose DevHub describes a compatible schema and that runs
    the check five times. *)
Lemma checkForPrerequisites_describes_once_sample :
  checkRepeatedly (describing (Some compatibleSchema)) sampleHub 5 (freshProcess ∅)
  = snd (checkForPrerequisites (describing (Some compatibleSchema)) sampleHub None
           (freshProcess ∅))
  /\ calls (checkRepeatedly (describing (Some compatibleSchema)) sampleHub 5
              (freshProcess ∅))
     = calls (freshProcess ∅) ++ [describeCall]
  /\ describeCalls (checkRepeatedly (describing (Some compatibleSchema)) sampleHub 5
                      (freshProcess ∅))
     = describeCalls (freshProcess ∅) + 1
  /\ forall ctx,
       checkForPrerequisites (describing (Some compatibleSchema)) sampleHub ctx
         (snd (checkForPrerequisites (describing (Some compatibleSchema)) sampleHub None
                 (freshProcess ∅)))
       = (fst (checkForPrerequisites (describing (Some compatibleSchema)) sampleHub None
                 (freshProcess ∅)),
          snd (checkForPrerequisites (describing (Some compatibleSchema)) sampleHub None
                 (freshProcess ∅))).
Proof.
  apply (checkForPrerequisites_describes_once (describing (Some compatibleSchema))
           sampleHub (freshProcess ∅) (Some compatibleSchema) 5).
  - reflexivity.
  - reflexivity.
  - lia.
Defined.

(** The claim as stated fails: while the DevHub cannot be reached,
    nothing is memoised, and two invocations describe eight times. *)
Lemma checkForPrerequisites_describes_again :
  describeCalls (checkRepeatedly (unreachable connectionReset) sampleHub 2 (freshProcess ∅))
  = 8
  /\ isPrerequisiteChecked
       (checkRepeatedly (unreachable connectionReset) sampleHub 2 (freshProcess ∅))
     = false
  /\ ~ (forall remote hubOrg n h,
          2 <= n ->
          describeCalls (checkRepeatedly remote hubOrg n (freshProcess h)) = 1).
Proof.
  split; [vm_compute; reflexivity|]. split; [vm_compute; reflexivity|].
  intros H. specialize (H (unreachable connectionReset) sampleHub 2 ∅ ltac:(lia)).
  vm_compute in H. discriminate.
Qed.

(** ** The prerequisite check: verdict (C2) *)

Lemma includes_elem_of (l : list string) (item : string) :
  includes l item = true <-> item ∈ l.
Proof.
  unfold includes. rewrite existsb_exists. split.
  - intros (x & Hx & Heq). apply String.eqb_eq in Heq. subst.
    now apply list_elem_of_In.
  - intros H. exists item. split; [now apply list_elem_of_In|apply String.eqb_refl].
Qed.

(** The test [expectedValues.filter(item => !availableValues.includes(item)).length == 0]. *)
Lemma none_missing_subseteq (expected available : list string) :
  Nat.eqb (length (List.filter (fun item => negb (includes available item)) expected)) 0
  = true
  <-> expected ⊆ available.
Proof.
  rewrite Nat.eqb_eq. induction expected as [|x rest IH]; cbn [List.filter].
  - split; [intros _ y Hy; now apply elem_of_nil in Hy|reflexivity].
  - destruct (includes available x) eqn:Hx; cbn [negb].
    + apply includes_elem_of in Hx. rewrite IH. split.
      * intros H y [->|Hy]%elem_of_cons; auto.
      * intros H y Hy. apply H. now apply list_elem_of_further.
    + cbn [length]. split; [discriminate|].
      intros H. exfalso.
      assert (Hin : x ∈ available) by (apply H; apply list_elem_of_here).
      apply includes_elem_of in Hin. congruence.
Qed.

Lemma authUrl_existsb (fs : list Field) :
  existsb (fun g => String.eqb (name g) "SfdxAuthUrl__c") fs = true
  <-> authUrlFieldExists fs.
Proof.
  unfold authUrlFieldExists. rewrite existsb_exists, list_elem_of_In, in_map_iff.
  split.
  - intros (g & Hg & Heq). apply String.eqb_eq in Heq. eauto.
  - intros (g & Heq & Hg). exists g. split; [assumption|]. now apply String.eqb_eq.
Qed.

Lemma allocationStatusField_absent (fs : list Field) :
  "Allocation_status__c" ∉ map name fs -> allocationStatusField fs = None.
Proof.
  unfold allocationStatusField. induction fs as [|f rest IH]; [reflexivity|].
  cbn [map List.find]. intros Hnot.
  destruct (String.eqb_spec (name f) "Allocation_status__c") as [Heq|Hne].
  - exfalso. apply Hnot. rewrite Heq. apply list_elem_of_here.
  - apply IH. intros H. apply Hnot. now apply list_elem_of_further.
Qed.

(** What the loop over the fields computes when the field names are
    unique and the auth-url field is not listed after the allocation-status
    field. *)
Lemma scanFields_result (fs : list Field) (auth : bool) (available : list string) :
  NoDup (map name fs) ->
  authUrlListedFirst fs = true ->
  scanFields fs auth available
  = (auth || existsb (fun g => String.eqb (name g) "SfdxAuthUrl__c") fs,
     available
       ++ (if Nat.eqb (length (allocationPicklist fs)) 4 then activeValues fs else [])).
Proof.
  revert auth. induction fs as [|f rest IH]; intros auth Hnodup Hfirst.
  - cbn. now rewrite orb_false_r, app_nil_r.
  - cbn [map] in Hnodup. apply NoDup_cons in Hnodup as [Hfresh Hnodup].
    cbn [authUrlListedFirst] in Hfirst. apply andb_true_iff in Hfirst as [Hhere Hfirst].
    cbn [scanFields existsb].
    unfold allocationPicklist, activeValues, allocationPicklist, allocationStatusField.
    cbn [List.find].
    destruct (String.eqb_spec (name f) "Allocation_status__c") as [Hname|Hname].
    + apply negb_true_iff in Hhere. rewrite Hhere, orb_false_r.
      assert (Hauth : String.eqb (name f) "SfdxAuthUrl__c" = false).
      { rewrite Hname. reflexivity. }
      rewrite Hauth. cbn [orb andb].
      destruct (Nat.eqb (length (picklistValues f)) 4) eqn:Hlen;
        [now rewrite ?orb_false_r|].
      rewrite IH by assumption. rewrite Hhere, ?orb_false_r.
      rewrite Hname in Hfresh.
      unfold allocationPicklist, activeValues, allocationPicklist.
      rewrite (allocationStatusField_absent rest Hfresh). reflexivity.
    + cbn [andb]. rewrite IH by assumption.
      destruct (String.eqb (name f) "SfdxAuthUrl__c"); cbn [orb];
        [now rewrite orb_true_r|reflexivity].
Qed.

Lemma expectedValues_not_in_nil : ~ expectedValues ⊆ [].
Proof.
  intros H. assert (Hin : "In Progress" ∈ @nil string).
  { apply H. apply list_elem_of_here. }
  now apply elem_of_nil in Hin.
Qed.

(** The verdict of the loop and of the test that follows it. *)
Lemma prerequisiteMet_iff (fs : list Field) :
  NoDup (map name fs) ->
  authUrlListedFirst fs = true ->
  (let '(sfdxAuthUrlFieldExists, availableValues) := scanFields fs false [] in
   sfdxAuthUrlFieldExists
   && Nat.eqb
        (length (List.filter (fun item => negb (includes availableValues item))
                   expectedValues)) 0) = true
  <-> ~ failsOnWholePicklist fs.
Proof.
  intros Hnodup Hfirst. rewrite scanFields_result by assumption.
  cbn [orb app]. rewrite andb_true_iff, authUrl_existsb, none_missing_subseteq.
  unfold failsOnWholePicklist.
  destruct (Nat.eqb_spec (length (allocationPicklist fs)) 4) as [Hlen|Hlen].
  - split.
    + intros [Hauth Hsub] [H|[H|H]]; contradiction.
    + intros H. split.
      * destruct (decide (authUrlFieldExists fs)) as [Hauth|Hauth]; [assumption|].
        exfalso. apply H. auto.
      * destruct (decide (expectedValues ⊆ activeValues fs)) as [Hsub|Hsub];
          [assumption|].
        exfalso. apply H. auto.
  - split.
    + intros [_ Hsub]. now apply expectedValues_not_in_nil in Hsub.
    + intros H. exfalso. apply H. auto.
Qed.

(** C2, as the code has it. For a describe result with unique field
    names in which the auth-url field is not listed after the
    allocation-status field, the first check of a process throws
    [PreRequisiteCheckError], carrying the fields, exactly when the picklist
    of the allocation-status field, inactive entries included, has a count
    different from 4, or the four expected values are not all among its active
    values, or the auth-url field is absent; otherwise it returns. *)
Theorem checkForPrerequisites_verdict remote hubOrg ctx w dr :
  isPrerequisiteChecked w = false ->
  isPrerequisiteMet w = false ->
  answerDescribe remote (length (calls w)) "ScratchOrgInfo" = Returned (Some dr) ->
  NoDup (map name (fields dr)) ->
  authUrlListedFirst (fields dr) = true ->
  (failsOnWholePicklist (fields dr) ->
   fst (checkForPrerequisites remote hubOrg ctx w)
   = Thrown (PreRequisiteCheckError prerequisiteMessage (fields dr)))
  /\ (~ failsOnWholePicklist (fields dr) ->
      fst (checkForPrerequisites remote hubOrg ctx w) = Returned tt).
Proof.
  intros Hunchecked Hunmet Hd Hnodup Hfirst.
  destruct (checkForPrerequisites_first remote hubOrg ctx w (Some dr) Hunchecked Hd)
    as (w' & Hrun & _ & _ & Hdescribe & _ & Hmet).
  rewrite Hrun, Hunmet in *. cbn [fst orb] in *.
  pose proof (prerequisiteMet_iff (fields dr) Hnodup Hfirst) as Hiff.
  unfold memoisedVerdict. rewrite Hdescribe.
  destruct (isPrerequisiteMet w') eqn:Hw'.
  - split; [|reflexivity]. intros Hfails. exfalso.
    symmetry in Hmet. apply Hiff in Hmet. contradiction.
  - split; [reflexivity|]. intros Hok. apply Hiff in Hok. congruence.
Qed.

(** The sample schema meets the prerequisites: the check returns. *)
Lemma checkForPrerequisites_verdict_sample :
  fst (checkForPrerequisites (describing (Some compatibleSchema)) sampleHub None
         (freshProcess ∅))
  = Returned tt.
Proof.
  apply (checkForPrerequisites_verdict (describing (Some compatibleSchema)) sampleHub
           None (freshProcess ∅) compatibleSchema).
  - reflexivity.
  - reflexivity.
  - reflexivity.
  - apply (bool_decide_unpack _). vm_compute. exact I.
  - reflexivity.
  - intros [H|[H|H]]; apply H.
    + reflexivity.
    + apply (bool_decide_unpack _). vm_compute. exact I.
    + apply (bool_decide_unpack _). vm_compute. exact I.
Defined.

(** The claim as stated fails: with a fifth, inactive picklist entry the
    active picklist still has the four expected values and the auth-url field
    exists, yet the check throws. *)
Lemma checkForPrerequisites_counts_inactive_entries :
  ~ failsAsStated (fields schemaWithRetiredValue)
  /\ fst (checkForPrerequisites (describing (Some schemaWithRetiredValue)) sampleHub None
            (freshProcess ∅))
     = Thrown (PreRequisiteCheckError prerequisiteMessage (fields schemaWithRetiredValue)).
Proof.
  split.
  - intros [H|[H|H]]; apply H.
    + reflexivity.
    + apply (bool_decide_unpack _). vm_compute. exact I.
    + apply (bool_decide_unpack _). vm_compute. exact I.
  - vm_compute. reflexivity.
Qed.

(** ** Retry policy of the calls to the DevHub (C8) *)

Lemma underWrapper_refl ctx w : underWrapper ctx w w.
Proof. apply issuing_refl. Qed.

Lemma underWrapper_trans ctx w1 w2 w3 :
  underWrapper ctx w1 w2 -> underWrapper ctx w2 w3 -> underWrapper ctx w1 w3.
Proof. apply issuing_trans. Qed.

Lemma underWrapper_issue {A} req (answer : nat -> Outcome A) :
  respects underWrapper (issue req answer).
Proof. apply issuing_issue. reflexivity. Qed.

Lemma underWrapper_modifyWorld (f : World -> World) :
  (forall w, calls (f w) = calls w) -> respects underWrapper (modifyWorld f).
Proof. apply issuing_modifyWorld. Qed.

Lemma underWrapper_writeObject ref so : respects underWrapper (writeObject ref so).
Proof. apply underWrapper_modifyWorld. reflexivity. Qed.

(** Steps through a method whose calls are all issued by [issue]. *)
Ltac under_wrapper :=
  repeat first
    [ apply respects_ret; exact underWrapper_refl
    | apply respects_throw; exact underWrapper_refl
    | apply respects_readObject; exact underWrapper_refl
    | apply respects_getWorld; exact underWrapper_refl
    | apply underWrapper_issue
    | apply underWrapper_writeObject
    | apply underWrapper_modifyWorld; reflexivity
    | apply respects_tryCatch; [exact underWrapper_trans| |intros ?]
    | apply respects_bind; [exact underWrapper_trans| |intros ?]
    | match goal with |- respects _ (match ?x with _ => _ end) => destruct x end
    | match goal with |- respects _ (if ?x then _ else _) => destruct x end
    | match goal with |- respects _ (let '(_, _) := ?x in _) => destruct x end ].

Lemma truncateOrgIds_underWrapper refs : respects underWrapper (truncateOrgIds refs).
Proof.
  induction refs as [|ref rest IH]; cbn [truncateOrgIds]; under_wrapper. exact IH.
Qed.

Lemma assignRecordIds_underWrapper resultAsObject refs :
  respects underWrapper (assignRecordIds resultAsObject refs).
Proof.
  induction refs as [|ref rest IH]; cbn [assignRecordIds]; under_wrapper. exact IH.
Qed.

Lemma wrappedBy_refl opts ctx w : wrappedBy opts ctx w w.
Proof. apply issuing_refl. Qed.

Lemma wrappedBy_trans opts ctx w1 w2 w3 :
  wrappedBy opts ctx w1 w2 -> wrappedBy opts ctx w2 w3 -> wrappedBy opts ctx w1 w3.
Proof. apply issuing_trans. Qed.

(** A wrapper issues the calls of its body under its own options,
    whatever it runs under itself. *)
Lemma wrappedBy_retry {A} (fn : M A) opts :
  respects underWrapper fn -> respects (wrappedBy opts) (retry fn opts).
Proof.
  intros Hfn.
  apply (respects_retry underWrapper fn opts underWrapper_refl underWrapper_trans Hfn).
Qed.

(** A method that issues no call. *)
Lemma wrappedBy_quiet {A} (m : M A) opts :
  respects (keeping calls) m -> respects (wrappedBy opts) m.
Proof.
  intros Hm ctx w. exists []. split; [|constructor].
  rewrite app_nil_r. apply Hm.
Qed.

Lemma keeping_calls_writeObject ref so : respects (keeping calls) (writeObject ref so).
Proof. intros ctx w. reflexivity. Qed.

(** Steps through a method that issues no call. *)
Ltac quiet :=
  repeat first
    [ apply respects_ret; exact (keeping_refl calls)
    | apply respects_throw; exact (keeping_refl calls)
    | apply respects_readObject; exact (keeping_refl calls)
    | apply respects_getWorld; exact (keeping_refl calls)
    | apply keeping_calls_writeObject
    | apply respects_bind; [exact (keeping_trans calls)| |intros ?]
    | match goal with |- respects _ (match ?x with _ => _ end) => destruct x end ].

Lemma truncateOrgIds_quiet refs : respects (keeping calls) (truncateOrgIds refs).
Proof. induction refs as [|ref rest IH]; cbn [truncateOrgIds]; quiet. exact IH. Qed.

(** Steps through a method whose calls are issued inside wrappers with
    the options [opts]. *)
Ltac wrapped_by opts :=
  repeat first
    [ apply respects_ret; exact (wrappedBy_refl opts)
    | apply respects_throw; exact (wrappedBy_refl opts)
    | apply respects_getWorld; exact (wrappedBy_refl opts)
    | apply wrappedBy_retry; under_wrapper
    | apply wrappedBy_quiet; apply truncateOrgIds_quiet
    | apply respects_bind; [exact (wrappedBy_trans opts)| |intros ?]
    | match goal with |- respects _ (match ?x with _ => _ end) => destruct x end
    | match goal with |- respects _ (if ?x then _ else _) => destruct x end
    | match goal with |- respects _ (let '(_, _) := ?x in _) => destruct x end ].

(** C8, as the code has it. Each method issues all its calls under the
    retry options of the table [retryOptionsOf]: [retries: 3] with a minimum
    timeout of 2 seconds for [QueryHelper.query], of 3 seconds for the wrapped
    queries, the update and the delete of [ScratchOrgUtils], and of 30 seconds
    for the schema describe and the e-mail request; the limits request, the
    query by user and the calls of [createScratchOrg], the login-URL query
    among them, are issued outside any retry wrapper. When every query throws
    the same error, [QueryHelper.query] and [getScratchOrgsByTag] throw that
    error. *)
Theorem retry_policy_of_remote_calls remote op w :
  (exists cs,
     calls (snd (perform remote op None w)) = calls w ++ cs
     /\ Forall (fun c => policy c = retryOptionsOf op) cs)
  /\ (forall e,
        (forall n tooling q, answerQuery remote n tooling q = Thrown e) ->
        forall query isTooling tag hubOrg isMyPool unAssigned ctx w0,
          fst (QueryHelper_query remote query isTooling ctx w0) = Thrown e
          /\ fst (getScratchOrgsByTag remote tag hubOrg isMyPool unAssigned ctx w0)
             = Thrown e).
Proof.
  split.
  - change (underWrapper (retryOptionsOf op) w (snd (perform remote op None w))).
    destruct op; cbn [perform retryOptionsOf]; unfold discard.
    + apply (respects_at (wrappedBy {| retries := 3; minTimeout := 30000%N |})).
      unfold checkForPrerequisites.
      wrapped_by {| retries := 3; minTimeout := 30000%N |}.
      all: apply wrappedBy_quiet; intros ? ?; reflexivity.
    + apply respects_at. unfold getScratchOrgLimits. under_wrapper.
    + apply respects_at. unfold getScratchOrgRecordsAsMapByUser. under_wrapper.
    + apply respects_at. unfold createScratchOrg, getScratchOrgLoginURL. under_wrapper.
    + apply (respects_at (wrappedBy {| retries := 3; minTimeout := 30000%N |})).
      unfold shareScratchOrgThroughEmail.
      apply respects_bind; [exact (wrappedBy_trans _)| |intros ?].
      { apply wrappedBy_quiet. intros ? ?. reflexivity. }
      wrapped_by {| retries := 3; minTimeout := 30000%N |}.
    + apply (respects_at (wrappedBy {| retries := 3; minTimeout := 3000%N |})).
      unfold getScratchOrgRecordId.
      wrapped_by {| retries := 3; minTimeout := 3000%N |}.
      apply assignRecordIds_underWrapper.
    + apply (respects_at (wrappedBy {| retries := 3; minTimeout := 3000%N |})).
      unfold setScratchOrgInfo. wrapped_by {| retries := 3; minTimeout := 3000%N |}.
    + apply (respects_at (wrappedBy {| retries := 3; minTimeout := 3000%N |})).
      unfold getScratchOrgsByTag. wrapped_by {| retries := 3; minTimeout := 3000%N |}.
    + apply (respects_at (wrappedBy {| retries := 3; minTimeout := 3000%N |})).
      unfold getActiveScratchOrgsByInfoId.
      wrapped_by {| retries := 3; minTimeout := 3000%N |}.
    + apply (respects_at (wrappedBy {| retries := 3; minTimeout := 3000%N |})).
      unfold getCountOfActiveScratchOrgsByTag.
      wrapped_by {| retries := 3; minTimeout := 3000%N |}.
    + apply (respects_at (wrappedBy {| retries := 3; minTimeout := 3000%N |})).
      unfold getCountOfActiveScratchOrgsByTagAndUsername.
      wrapped_by {| retries := 3; minTimeout := 3000%N |}.
    + apply (respects_at (wrappedBy {| retries := 3; minTimeout := 3000%N |})).
      unfold getActiveScratchOrgRecordIdGivenScratchOrg.
      wrapped_by {| retries := 3; minTimeout := 3000%N |}.
    + apply (respects_at (wrappedBy {| retries := 3; minTimeout := 3000%N |})).
      unfold deleteScratchOrg. wrapped_by {| retries := 3; minTimeout := 3000%N |}.
    + apply (respects_at (wrappedBy {| retries := 3; minTimeout := 2000%N |})).
      unfold QueryHelper_query. wrapped_by {| retries := 3; minTimeout := 2000%N |}.
  - intros e Hdown query isTooling tag hubOrg isMyPool unAssigned ctx w0. split.
    + unfold QueryHelper_query. apply retry_always_thrown. intros w1.
      unfold bind, issue. now rewrite Hdown.
    + unfold getScratchOrgsByTag. apply retry_always_thrown. intros w1.
      unfold issue. cbn [fst]. apply Hdown.
Qed.

(** A DevHub that cannot be reached: the error of the queries is the
    error of [QueryHelper.query]. *)
Lemma retry_policy_of_remote_calls_sample :
  fst (QueryHelper_query (unreachable connectionReset) "SELECT Id FROM ScratchOrgInfo"
         false None (freshProcess ∅))
  = Thrown connectionReset.
Proof.
  apply (proj2 (retry_policy_of_remote_calls (unreachable connectionReset)
                  (QueryHelperQuery "SELECT Id FROM ScratchOrgInfo" false)
                  (freshProcess ∅))
           connectionReset (fun _ _ _ => eq_refl)
           "SELECT Id FROM ScratchOrgInfo" false None sampleHub false false None
           (freshProcess ∅)).
Defined.

(** The claim as stated fails: the query by user is issued once, outside
    any retry wrapper. *)
Lemma getScratchOrgRecordsAsMapByUser_not_wrapped :
  calls (snd (perform (unreachable connectionReset)
                (GetScratchOrgRecordsAsMapByUser sampleHub) None (freshProcess ∅)))
  = [ {| request :=
           ReqQuery false
             "SELECT count(id) In_Use, SignupEmail FROM ActiveScratchOrg GROUP BY SignupEmail ORDER BY count(id) DESC";
         policy := None |} ]
  /\ ~ (forall remote op h c,
          c ∈ calls (snd (perform remote op None (freshProcess h))) -> statedPolicy c).
Proof.
  split; [reflexivity|]. intros H.
  destruct (H (unreachable connectionReset) (GetScratchOrgRecordsAsMapByUser sampleHub) ∅
              {| request :=
                   ReqQuery false
                     "SELECT count(id) In_Use, SignupEmail FROM ActiveScratchOrg GROUP BY SignupEmail ORDER BY count(id) DESC";
                 policy := None |})
    as (seconds & Hpolicy & _).
  - apply list_elem_of_here.
  - discriminate.
Qed.

(** ** Samples of the listing *)

(** The listing of the four pool rows in the new mode. *)
Lemma execute_status_derivation_sample :
  exists results n,
    answerQuery poolRemote n false
      (scratchOrgsByTagQuery (impl_tag coreListing) (impl_hubOrg coreListing)
         (truthyFlag (impl_mypool coreListing))
         (negb (truthyFlag (impl_allScratchOrgs coreListing))))
    = Returned results
    /\ Forall2
         (fun element so =>
            status so
            = Some (derivedStatus
                      (isNewVersionCompatible
                         (snd (execute poolRemote newVersionFound coreListing None
                                 (freshProcess ∅))))
                      (ScratchOrgInfo.Allocation_status__c element)))
         (records results) (map (soDetailOf true) poolRows).
Proof.
  apply (execute_status_derivation poolRemote newVersionFound coreListing None
           (freshProcess ∅)).
  vm_compute. reflexivity.
Defined.

(** The counts of the list command over the four pool rows. *)
Lemma run_total_is_sum_of_counts_sample :
  let output :=
    {| total := 4; inuse := 1; unused := 1; inprovision := 2;
       scratchOrgDetails := map (set_password None) (map (soDetailOf true) poolRows) |} in
  Forall knownStatus (scratchOrgDetails output)
  /\ total output = inuse output + unused output + inprovision output
  /\ total output = length (scratchOrgDetails output)
  /\ inuse output = length (List.filter (hasStatus "In use") (scratchOrgDetails output))
  /\ unused output = length (List.filter (hasStatus "Available") (scratchOrgDetails output))
  /\ inprovision output
     = length (List.filter (hasStatus "Provisioning in progress") (scratchOrgDetails output)).
Proof.
  apply (run_total_is_sum_of_counts poolRemote newVersionFound sampleHub coreFlags None
           (freshProcess ∅) _
           (snd (run poolRemote newVersionFound sampleHub coreFlags None (freshProcess ∅)))).
  vm_compute. reflexivity.
Defined.

(** * Further properties of the sources *)

(** ** PreRequisiteCheck *)

(** The wrapper around the describe call when the first [j] describe
    calls throw and the next one returns. *)
Lemma runAttempt_describe remote opts d j :
  forall n errors w,
    j <= n ->
    (forall i, i < j ->
       exists e, answerDescribe remote (length (calls w) + i) "ScratchOrgInfo" = Thrown e) ->
    answerDescribe remote (length (calls w) + j) "ScratchOrgInfo" = Returned d ->
    exists w1,
      runAttempt n errors (describeAndScan remote) opts w
      = (Returned match d with
                  | Some dr => scanFields (fields dr) false []
                  | None => (false, [])
                  end, w1)
      /\ calls w1
         = calls w
           ++ replicate (S j) {| request := ReqDescribe "ScratchOrgInfo"; policy := Some opts |}
      /\ describeResult w1 = d
      /\ heap w1 = heap w
      /\ isPrerequisiteChecked w1 = isPrerequisiteChecked w
      /\ isPrerequisiteMet w1 = isPrerequisiteMet w
      /\ isNewVersionCompatible w1 = isNewVersionCompatible w.
Proof.
  induction j as [|j IH]; intros n errors w Hn Hthrown Hreturned.
  - rewrite Nat.add_0_r in Hreturned.
    exists (set_describeResult d
              (recordCall {| request := ReqDescribe "ScratchOrgInfo"; policy := Some opts |} w)).
    split; [|repeat split].
    destruct n; cbn [runAttempt];
      now rewrite (describeAndScan_returns _ _ _ _ Hreturned).
  - destruct n as [|n]; [lia|].
    destruct (Hthrown 0 ltac:(lia)) as [e He]. rewrite Nat.add_0_r in He.
    cbn [runAttempt]. rewrite (describeAndScan_throws _ _ _ _ He).
    set (w0 := recordCall {| request := ReqDescribe "ScratchOrgInfo"; policy := Some opts |} w).
    destruct (IH n (errors ++ [e]) w0 ltac:(lia)) as (w1 & Hrun & Hcalls & Hrest).
    + intros i Hi. destruct (Hthrown (S i) ltac:(lia)) as [e' He'].
      exists e'. subst w0. rewrite length_calls_recordCall.
      now replace (length (calls w) + 1 + i) with (length (calls w) + S i) by lia.
    + subst w0. rewrite length_calls_recordCall.
      now replace (length (calls w) + 1 + j) with (length (calls w) + S j) by lia.
    + exists w1. split; [exact Hrun|]. split; [|exact Hrest].
      rewrite Hcalls. subst w0. cbn [calls recordCall]. rewrite <- app_assoc.
      reflexivity.
Qed.

(** What the check does once the wrapper around the describe call has returned. *)
Lemma checkForPrerequisites_after_describe remote hubOrg ctx w locals w1 :
  isPrerequisiteChecked w = false ->
  retry (describeAndScan remote) {| retries := 3; minTimeout := 30000%N |} ctx w
  = (Returned locals, w1) ->
  let met :=
    fst locals
    && Nat.eqb
         (length (List.filter (fun item => negb (includes (snd locals) item))
                    expectedValues)) 0 in
  let w' :=
    if met then set_isPrerequisiteMet true (set_isPrerequisiteChecked true w1)
    else set_isPrerequisiteChecked true w1 in
  checkForPrerequisites remote hubOrg ctx w = (memoisedVerdict w', w').
Proof.
  intros Hunchecked Hretry. cbv zeta. unfold checkForPrerequisites.
  rewrite (bind_returned getWorld _ ctx w w w eq_refl).
  rewrite Hunchecked. cbn [negb].
  unfold bind at 1. rewrite (bind_returned _ _ _ _ _ _ Hretry).
  destruct locals as [sfdxAuthUrlFieldExists availableValues]. cbn [fst snd].
  unfold bind at 1, modifyWorld at 1. cbn [fst snd].
  destruct (sfdxAuthUrlFieldExists && _).
  - reflexivity.
  - unfold ret, bind, getWorld, memoisedVerdict, throw. cbn.
    destruct (isPrerequisiteMet w1); cbn; [reflexivity|].
    destruct (describeResult w1); reflexivity.
Qed.

(** Transient failures of the describe call are absorbed: when up to
    three describe calls throw and the next one returns, the check issues
    those calls and no other, memoises, and answers as it would have after an
    immediate answer. *)
Theorem checkForPrerequisites_absorbs_transient_failures remote hubOrg ctx w d j :
  isPrerequisiteChecked w = false ->
  j <= 3 ->
  (forall i, i < j ->
     exists e, answerDescribe remote (length (calls w) + i) "ScratchOrgInfo" = Thrown e) ->
  answerDescribe remote (length (calls w) + j) "ScratchOrgInfo" = Returned d ->
  let after := checkForPrerequisites remote hubOrg ctx w in
  calls (snd after) = calls w ++ replicate (S j) describeCall
  /\ isPrerequisiteChecked (snd after) = true
  /\ describeResult (snd after) = d
  /\ fst after = memoisedVerdict (snd after)
  /\ forall ctx',
       checkForPrerequisites remote hubOrg ctx' (snd after) = (fst after, snd after).
Proof.
  intros Hunchecked Hj Hthrown Hreturned. cbv zeta.
  destruct (runAttempt_describe remote {| retries := 3; minTimeout := 30000%N |} d j
              3 [] w Hj Hthrown Hreturned)
    as (w1 & Hrun & Hcalls & Hdescribe & _).
  rewrite (checkForPrerequisites_after_describe remote hubOrg ctx w _ w1 Hunchecked Hrun).
  cbn [fst snd].
  match goal with |- context [if ?b then _ else _] => destruct b end;
    (split; [exact Hcalls|]; split; [reflexivity|]; split; [exact Hdescribe|];
     split; [reflexivity|]; intros ctx'; now apply checkForPrerequisites_memoised).
Qed.

Lemma checkForPrerequisites_absorbs_transient_failures_sample :
  let after :=
    checkForPrerequisites (flaky 2 (Some compatibleSchema)) sampleHub None (freshProcess ∅) in
  calls (snd after) = calls (freshProcess ∅) ++ replicate 3 describeCall
  /\ isPrerequisiteChecked (snd after) = true
  /\ describeResult (snd after) = Some compatibleSchema
  /\ fst after = memoisedVerdict (snd after)
  /\ forall ctx',
       checkForPrerequisites (flaky 2 (Some compatibleSchema)) sampleHub ctx' (snd after)
       = (fst after, snd after).
Proof.
  apply (checkForPrerequisites_absorbs_transient_failures
           (flaky 2 (Some compatibleSchema)) sampleHub None (freshProcess ∅)
           (Some compatibleSchema) 2).
  - reflexivity.
  - lia.
  - intros i Hi. exists connectionReset.
    destruct i as [|[|i]]; [reflexivity|reflexivity|lia].
  - reflexivity.
Defined.

(** The loop over the fields stops at the allocation-status field: what
    is listed after it is not looked at. *)
Lemma scanFields_stops (before after : list Field) (f : Field) auth available :
  Forall (fun g => name g <> "SfdxAuthUrl__c" /\ name g <> "Allocation_status__c") before ->
  name f = "Allocation_status__c" ->
  length (picklistValues f) = 4 ->
  scanFields (before ++ f :: after) auth available
  = (auth, available ++ map value (List.filter active (picklistValues f))).
Proof.
  intros Hbefore Hname Hlen.
  induction Hbefore as [|g before [Hauth Hstatus] _ IH]; cbn [app scanFields].
  - rewrite Hname, Hlen. reflexivity.
  - apply String.eqb_neq in Hauth, Hstatus. rewrite Hauth, Hstatus. exact IH.
Qed.

(** An auth-url field that the describe result lists after the
    allocation-status field is not found: the first check of a process fails,
    even when the picklist holds exactly the four expected active values. *)
Theorem checkForPrerequisites_misses_later_authUrl remote hubOrg ctx w before f after :
  isPrerequisiteChecked w = false ->
  isPrerequisiteMet w = false ->
  answerDescribe remote (length (calls w)) "ScratchOrgInfo"
  = Returned (Some {| fields := before ++ f :: after |}) ->
  Forall (fun g => name g <> "SfdxAuthUrl__c" /\ name g <> "Allocation_status__c") before ->
  name f = "Allocation_status__c" ->
  length (picklistValues f) = 4 ->
  fst (checkForPrerequisites remote hubOrg ctx w)
  = Thrown (PreRequisiteCheckError prerequisiteMessage (before ++ f :: after)).
Proof.
  intros Hunchecked Hunmet Hd Hbefore Hname Hlen.
  destruct (checkForPrerequisites_first remote hubOrg ctx w _ Hunchecked Hd)
    as (w' & Hrun & _ & _ & Hdescribe & _ & Hmet).
  rewrite Hrun. cbn [fst]. unfold memoisedVerdict.
  cbn [fields] in Hmet. rewrite (scanFields_stops before after f) in Hmet by assumption.
  rewrite Hunmet in Hmet. cbn [orb andb] in Hmet.
  rewrite Hmet, Hdescribe. reflexivity.
Qed.

Lemma checkForPrerequisites_misses_later_authUrl_sample :
  fst (checkForPrerequisites (describing (Some schemaWithAuthUrlLast)) sampleHub None
         (freshProcess ∅))
  = Thrown (PreRequisiteCheckError prerequisiteMessage (fields schemaWithAuthUrlLast)).
Proof.
  apply (checkForPrerequisites_misses_later_authUrl
           (describing (Some schemaWithAuthUrlLast)) sampleHub None (freshProcess ∅)
           [ {| name := "Id"; picklistValues := [] |} ]
           {| name := "Allocation_status__c"; picklistValues := expectedPicklist |}
           [ {| name := "SfdxAuthUrl__c"; picklistValues := [] |} ]).
  - reflexivity.
  - reflexivity.
  - reflexivity.
  - repeat constructor; discriminate.
  - reflexivity.
  - reflexivity.
Defined.

(** A describe call that resolves to nothing makes the check throw a
    [TypeError] instead of [PreRequisiteCheckError], and the check is memoised
    as run: every later invocation throws the same error without describing. *)
Theorem checkForPrerequisites_without_describe_result remote hubOrg ctx w :
  isPrerequisiteChecked w = false ->
  isPrerequisiteMet w = false ->
  answerDescribe remote (length (calls w)) "ScratchOrgInfo" = Returned None ->
  let after := checkForPrerequisites remote hubOrg ctx w in
  (exists message, fst after = Thrown (TypeError message))
  /\ isPrerequisiteChecked (snd after) = true
  /\ forall ctx',
       checkForPrerequisites remote hubOrg ctx' (snd after) = (fst after, snd after).
Proof.
  intros Hunchecked Hunmet Hd. cbv zeta.
  destruct (checkForPrerequisites_first remote hubOrg ctx w _ Hunchecked Hd)
    as (w' & Hrun & Hchecked & _ & Hdescribe & _ & Hmet).
  rewrite Hrun. cbn [fst snd]. rewrite Hunmet in Hmet. cbn in Hmet.
  split; [|split].
  - unfold memoisedVerdict. rewrite Hmet, Hdescribe. eauto.
  - exact Hchecked.
  - intros ctx'. now apply checkForPrerequisites_memoised.
Qed.

Lemma checkForPrerequisites_without_describe_result_sample :
  let after := checkForPrerequisites (describing None) sampleHub None (freshProcess ∅) in
  (exists message, fst after = Thrown (TypeError message))
  /\ isPrerequisiteChecked (snd after) = true
  /\ forall ctx',
       checkForPrerequisites (describing None) sampleHub ctx' (snd after)
       = (fst after, snd after).
Proof.
  apply (checkForPrerequisites_without_describe_result (describing None) sampleHub None
           (freshProcess ∅)); reflexivity.
Defined.

(** ** The retry wrapper around a single call *)

(** What the wrapper rejects with is an error that one of the runs threw. *)
Lemma runAttempt_thrown {A} (fn : M A) opts n errors w e w' :
  runAttempt n errors fn opts w = (Thrown e, w') ->
  In e errors \/ exists w0 w1, fn (Some opts) w0 = (Thrown e, w1).
Proof.
  revert errors w. induction n as [|n IH]; intros errors w; cbn [runAttempt];
    destruct (fn (Some opts) w) as [[a|e0] w1] eqn:Hfn; try discriminate.
  - intros H. inversion H; subst; clear H.
    assert (Hin : In (mainError e0 (errors ++ [e0])) (errors ++ [e0])).
    { apply mainError_In. apply in_or_app. right. now left. }
    apply in_app_or in Hin as [Hin|[Heq|[]]]; [now left|].
    right. exists w, w'. now rewrite <- Heq.
  - intros H. apply IH in H as [Hin|H]; [|now right].
    apply in_app_or in Hin as [Hin|[Heq|[]]]; [now left|].
    right. exists w, w1. now rewrite <- Heq.
Qed.

(** A body that throws [e] on every run after issuing the call [c]: the
    wrapper issues [c] once more than it has retries and rejects with [e]. *)
Lemma runAttempt_exhausted {A} (fn : M A) opts c e n errors w :
  (forall w0, fn (Some opts) w0 = (Thrown e, recordCall c w0)) ->
  Forall (eq e) errors ->
  exists w',
    runAttempt n errors fn opts w = (Thrown e, w')
    /\ calls w' = calls w ++ replicate (S n) c
    /\ heap w' = heap w.
Proof.
  intros Hfn. revert errors w. induction n as [|n IH]; intros errors w Herrors;
    cbn [runAttempt]; rewrite Hfn.
  - exists (recordCall c w). split; [|split; reflexivity].
    f_equal. f_equal. apply mainError_same. apply Forall_app. split; auto.
  - destruct (IH (errors ++ [e]) (recordCall c w)) as (w' & Hrun & Hcalls & Hheap).
    { apply Forall_app. split; auto. }
    exists w'. split; [exact Hrun|]. split; [|exact Hheap].
    rewrite Hcalls. cbn [calls recordCall replicate]. now rewrite <- app_assoc.
Qed.

(** ** QueryHelper *)

(** [QueryHelper.query] issues its query, on the API asked for, at least
    once and at most four times; the rows it returns are the rows of one of
    the answers, an answer to the first query is returned at once, and the
    error it throws is the error of one of the queries. *)
Theorem QueryHelper_query_attempts remote query isTooling ctx w :
  let after := QueryHelper_query remote query isTooling ctx w in
  let c := {| request := ReqQuery isTooling query;
              policy := Some {| retries := 3; minTimeout := 2000%N |} |} in
  (exists k, 1 <= k <= 4 /\ calls (snd after) = calls w ++ replicate k c)
  /\ (forall rows, fst after = Returned rows ->
      exists n result,
        answerQuery remote n isTooling query = Returned result /\ rows = records result)
  /\ (forall result,
        answerQuery remote (length (calls w)) isTooling query = Returned result ->
        after = (Returned (records result), recordCall c w))
  /\ (forall e, fst after = Thrown e ->
      exists n, answerQuery remote n isTooling query = Thrown e).
Proof.
  cbv zeta. unfold QueryHelper_query. split; [|split; [|split]].
  - apply (retry_one_call _ {| retries := 3; minTimeout := 2000%N |}).
    intros w0. unfold bind, issue.
    destruct (answerQuery remote _ _ _); reflexivity.
  - intros rows H. unfold retry in H.
    destruct (runAttempt _ _ _ _ _) as [out w'] eqn:Hrun. cbn in H. subst out.
    apply runAttempt_returned in Hrun as (w0 & Hrun).
    unfold bind, issue, ret in Hrun.
    destruct (answerQuery remote (length (calls w0)) isTooling query) as [result|e] eqn:Ha;
      inversion Hrun; subst. eauto.
  - intros result H. apply retry_returned. unfold bind, issue, ret. now rewrite H.
  - intros e H. unfold retry in H.
    destruct (runAttempt _ _ _ _ _) as [out w'] eqn:Hrun. cbn in H. subst out.
    apply runAttempt_thrown in Hrun as [[]|(w0 & w1 & Hrun)].
    unfold bind, issue, ret in Hrun.
    destruct (answerQuery remote (length (calls w0)) isTooling query) as [result|e0] eqn:Ha;
      inversion Hrun; subst. eauto.
Qed.

(** ** ScratchOrgUtils: batches without identifiers, orgs without rows *)

Lemma truncateOrgIds_missing refs ctx w :
  ~ Forall (fun ref => is_Some (orgId (heap w !!! ref))) refs ->
  exists message w',
    truncateOrgIds refs ctx w = (Thrown (TypeError message), w')
    /\ calls w' = calls w.
Proof.
  revert w. induction refs as [|ref rest IH]; intros w Hmissing.
  - exfalso. apply Hmissing. constructor.
  - cbn [truncateOrgIds]. unfold bind at 1, readObject at 1. cbn [fst snd].
    destruct (orgId (heap w !!! ref)) as [id|] eqn:Hid.
    + set (w1 := set_heap (<[ref := set_orgId (Some (slice 0 15 id)) (heap w !!! ref)]>
                             (heap w)) w).
      destruct (IH w1) as (message & w' & Hrun & Hcalls).
      { intros Hall. apply Hmissing. constructor; [rewrite Hid; eauto|].
        apply Forall_forall. intros r Hr. rewrite Forall_forall in Hall.
        specialize (Hall r Hr). subst w1. rewrite heap_after_write in Hall.
        destruct (decide (ref = r)) as [->|_]; [rewrite Hid; eauto|exact Hall]. }
      exists message, w'. split; [|exact Hcalls].
      unfold bind, writeObject, modifyWorld, readObject. cbn [fst snd]. fold w1.
      unfold bind in Hrun. now rewrite Hrun.
    + eexists _, w. split; reflexivity.
Qed.

(** [getScratchOrgRecordId] asks the DevHub nothing unless it has a
    batch in which every scratch org carries an identifier: without a batch,
    or with an empty one, it returns nothing and leaves the world as it is;
    with a scratch org that has no identifier it throws a [TypeError] before
    any query is issued. *)
Theorem getScratchOrgRecordId_needs_identifiers remote hubOrg ctx w :
  getScratchOrgRecordId remote None hubOrg ctx w = (Returned None, w)
  /\ getScratchOrgRecordId remote (Some []) hubOrg ctx w = (Returned None, w)
  /\ forall refs,
       ~ Forall (fun ref => is_Some (orgId (heap w !!! ref))) refs ->
       exists message,
         fst (getScratchOrgRecordId remote (Some refs) hubOrg ctx w)
         = Thrown (TypeError message)
         /\ calls (snd (getScratchOrgRecordId remote (Some refs) hubOrg ctx w)) = calls w.
Proof.
  split; [reflexivity|]. split; [reflexivity|].
  intros refs Hmissing.
  destruct (truncateOrgIds_missing refs ctx w Hmissing) as (message & w' & Hrun & Hcalls).
  exists message. unfold getScratchOrgRecordId.
  destruct refs as [|ref rest]; [exfalso; apply Hmissing; constructor|].
  rewrite (bind_thrown _ _ _ _ _ _ Hrun). split; [reflexivity|exact Hcalls].
Qed.

(** When the DevHub answers the record-id query without any row, the
    lookup of the first scratch org fails inside the retry wrapper: the query
    is issued four times and a [TypeError] reaches the caller; the identifiers
    of the batch have been truncated all the same. *)
Theorem getScratchOrgRecordId_without_rows remote refs hubOrg ctx w :
  refs <> [] ->
  Forall (fun ref => is_Some (orgId (heap w !!! ref))) refs ->
  (forall n q, exists result,
      answerQuery remote n false q = Returned result /\ records result = []) ->
  let after := getScratchOrgRecordId remote (Some refs) hubOrg ctx w in
  (exists message, fst after = Thrown (TypeError message))
  /\ (exists q,
        calls (snd after)
        = calls w
          ++ replicate 4
               {| request := ReqQuery false q;
                  policy := Some {| retries := 3; minTimeout := 3000%N |} |})
  /\ forall r, r ∈ refs ->
       orgId (heap (snd after) !!! r) = slice 0 15 <$> orgId (heap w !!! r).
Proof.
  intros Hne Hids Hempty. cbv zeta.
  destruct (truncateOrgIds_returns refs ctx w Hids) as (w1 & Hrun & Hcalls & Hheap).
  unfold getScratchOrgRecordId. destruct refs as [|ref rest]; [congruence|].
  rewrite (bind_returned _ _ _ _ _ _ Hrun).
  match goal with |- context [retry ?fn ?opts ctx w1] =>
    match fn with context [issue (ReqQuery false ?q) _] =>
      destruct (runAttempt_exhausted fn opts
                  {| request := ReqQuery false q; policy := Some opts |}
                  (TypeError "Cannot read property 'Id' of undefined") 3 [] w1)
        as (w' & Hretry & Hcalls' & Hheap')
    end
  end.
  - intros w0. unfold bind at 1, issue. cbn [fst snd].
    destruct (Hempty (length (calls w0))
                ("SELECT Id, ScratchOrg FROM ScratchOrgInfo WHERE ScratchOrg IN ( "
                 +:+ join ","
                       (map (fun ref0 =>
                               "'" +:+ slice 0 15 (template (orgId (heap w !!! ref0))) +:+ "'")
                          (ref :: rest))
                 +:+ " )")) as (result & -> & Hrecords).
    rewrite Hrecords. cbn [arrayToObject fold_left assignRecordIds].
    unfold bind, readObject. cbn [fst snd]. rewrite lookup_empty. reflexivity.
  - constructor.
  - unfold retry. cbn [retries]. rewrite Hretry. cbn [fst snd].
    split; [eauto|]. split.
    + eexists. rewrite Hcalls', Hcalls. reflexivity.
    + intros r Hr. rewrite Hheap', Hheap, decide_True by assumption. reflexivity.
Qed.

Lemma getScratchOrgRecordId_without_rows_sample :
  let after :=
    getScratchOrgRecordId emptyPool (Some [0; 1]) sampleHub None (freshProcess sampleBatch) in
  (exists message, fst after = Thrown (TypeError message))
  /\ (exists q,
        calls (snd after)
        = calls (freshProcess sampleBatch)
          ++ replicate 4
               {| request := ReqQuery false q;
                  policy := Some {| retries := 3; minTimeout := 3000%N |} |})
  /\ forall r, r ∈ [0; 1] ->
       orgId (heap (snd after) !!! r)
       = slice 0 15 <$> orgId (heap (freshProcess sampleBatch) !!! r).
Proof.
  apply (getScratchOrgRecordId_without_rows emptyPool [0; 1] sampleHub None
           (freshProcess sampleBatch)).
  - discriminate.
  - repeat constructor; eexists; reflexivity.
  - intros n q. eexists. split; reflexivity.
Defined.

(** The same for the lookup of the active record of one scratch org:
    when the DevHub answers without a row, the request is made four times and
    a [TypeError] reaches the caller; when the first answer has a row, its
    [Id] is returned after that one request. *)
Theorem getActiveScratchOrgRecordIdGivenScratchOrg_rows remote hubOrg apiversion
    scratchOrgId ctx w :
  let after :=
    getActiveScratchOrgRecordIdGivenScratchOrg remote hubOrg apiversion scratchOrgId ctx w in
  let url :=
    instanceUrl hubOrg +:+ "/services/data/v" +:+ apiversion
    +:+ "/query?q=SELECT+Id+FROM+ActiveScratchOrg+WHERE+ScratchOrg+=+'"
    +:+ scratchOrgId +:+ "'" in
  let c := {| request := ReqHttp "get" url ("Bearer " +:+ accessToken hubOrg);
              policy := Some {| retries := 3; minTimeout := 3000%N |} |} in
  ((forall n, exists result,
       answerHttpRequest remote n "get" url ("Bearer " +:+ accessToken hubOrg)
       = Returned result /\ records result = []) ->
   (exists message, fst after = Thrown (TypeError message))
   /\ calls (snd after) = calls w ++ replicate 4 c)
  /\ (forall result first rest,
        answerHttpRequest remote (length (calls w)) "get" url
          ("Bearer " +:+ accessToken hubOrg) = Returned result ->
        records result = first :: rest ->
        after = (Returned (ScratchOrgInfo.Id first), recordCall c w)).
Proof.
  cbv zeta. unfold getActiveScratchOrgRecordIdGivenScratchOrg. split.
  - intros Hempty.
    match goal with |- context [retry ?fn ?opts ctx w] =>
      match fn with context [issue ?req _] =>
        destruct (runAttempt_exhausted fn opts {| request := req; policy := Some opts |}
                    (TypeError "Cannot read property 'Id' of undefined") 3 [] w)
          as (w' & Hretry & Hcalls & _)
      end
    end.
    + intros w0. unfold bind, issue. cbn [fst snd].
      destruct (Hempty (length (calls w0))) as (result & -> & ->). reflexivity.
    + constructor.
    + unfold retry. cbn [retries]. rewrite Hretry. cbn [fst snd]. eauto.
  - intros result first rest Hanswer Hrecords. apply retry_returned.
    unfold bind, issue, ret. cbn [fst snd]. now rewrite Hanswer, Hrecords.
Qed.

(** Sharing a scratch org by e-mail reads the object and leaves the heap
    as it is; the request goes to the e-mail action, to the address given,
    between one and four times. *)
Theorem shareScratchOrgThroughEmail_request remote emailId scratchOrg hubOrg ctx w :
  let after := shareScratchOrgThroughEmail remote emailId scratchOrg hubOrg ctx w in
  heap (snd after) = heap w
  /\ exists k body subject,
       1 <= k <= 4
       /\ calls (snd after)
          = calls w
            ++ replicate k
                 {| request :=
                      ReqConnRequest "post"
                        "/services/data/v50.0/actions/standard/emailSimple"
                        [("emailBody", body); ("emailAddresses", emailId);
                         ("emailSubject", subject); ("senderType", "CurrentUser")];
                    policy := Some {| retries := 3; minTimeout := 30000%N |} |}
       /\ occursIn ("Username: " +:+ template (username (heap w !!! scratchOrg))) body
       /\ occursIn ("Password: " +:+ template (password (heap w !!! scratchOrg))) body.
Proof.
  cbv zeta. unfold shareScratchOrgThroughEmail.
  rewrite (bind_returned (readObject scratchOrg) _ ctx w (heap w !!! scratchOrg) w eq_refl).
  split.
  - apply (respects_retry (keeping heap)); [reflexivity|apply keeping_trans|].
    apply keeping_issue. reflexivity.
  - match goal with
    |- context [retry (issue (ReqConnRequest ?m ?u [(?k1, ?b); ?i2; (?k3, ?s); ?i4]) ?ans) ?opts] =>
      destruct (retry_one_call (issue (ReqConnRequest m u [(k1, b); i2; (k3, s); i4]) ans)
                  opts
                  {| request := ReqConnRequest m u [(k1, b); i2; (k3, s); i4];
                     policy := Some opts |} ctx w) as (k & Hk & Hcalls);
        [intros w0; reflexivity|];
      exists k, b, s
    end.
    split; [exact Hk|]. split; [exact Hcalls|]. split.
    + do 11 apply occursIn_append_r. eexists "   ", _. reflexivity.
    + do 15 apply occursIn_append_r. eexists "   ", _. reflexivity.
Qed.

(** ** Provisioning: the steps before the password *)

(** [createScratchOrg] stops at the first step that fails: an error of
    the creation command reaches the caller as it is, after that one call; an
    error of the login-URL query, or an answer to it without a row (a
    [TypeError]), ends the run after two calls, before any password is set. *)
Theorem createScratchOrg_fails_fast remote id adminEmail config_file_path expiry hubOrg
    ctx w :
  let after :=
    createScratchOrg remote id adminEmail config_file_path expiry hubOrg ctx w in
  let n := length (calls w) in
  let create :=
    answerCreateScratchOrg remote n config_file_path (getUsername hubOrg)
      ("SO" +:+ numberToString id) expiry adminEmail in
  (forall e, create = Thrown e ->
     fst after = Thrown e /\ length (calls (snd after)) = n + 1)
  /\ (forall created e,
        create = Returned created ->
        answerQuery remote (n + 1) false (loginUrlQuery (created_username created))
        = Thrown e ->
        fst after = Thrown e /\ length (calls (snd after)) = n + 2)
  /\ (forall created results,
        create = Returned created ->
        answerQuery remote (n + 1) false (loginUrlQuery (created_username created))
        = Returned results ->
        records results = [] ->
        (exists message, fst after = Thrown (TypeError message))
        /\ length (calls (snd after)) = n + 2).
Proof.
  cbv zeta. unfold createScratchOrg, tryCatch, getScratchOrgLoginURL, bind, issue, throw.
  cbn [fst snd username set_loginURL set_password]. split; [|split].
  - intros e ->. split; [reflexivity|]. cbn [snd]. apply length_calls_recordCall.
  - intros created e -> Hquery. rewrite !length_calls_recordCall.
    fold (loginUrlQuery (created_username created)). rewrite Hquery. cbn [fst snd].
    split; [reflexivity|]. rewrite !length_calls_recordCall. lia.
  - intros created results -> Hquery Hrecords. rewrite !length_calls_recordCall.
    fold (loginUrlQuery (created_username created)). rewrite Hquery, Hrecords.
    cbn [fst snd]. split; [eauto|]. rewrite !length_calls_recordCall. lia.
Qed.

(** A run of [createScratchOrg] against a DevHub that answers every step. *)
Lemma createScratchOrg_returns_complete_sample :
  let after :=
    createScratchOrg poolRemote 1 (Some "admin@example.com")
      "config/project-scratch-def.json" 7 sampleHub None (freshProcess ∅) in
  let scratchOrg :=
    {| tag := None; recordId := None; orgId := Some "00D1";
       loginURL := Some "https://test.salesforce.com";
       signupEmail := Some "admin@example.com";
       username := Some "test-1@example.com"; alias := Some "SO1";
       password := Some "s3cret"; expityDate := None; status := None;
       sfdxAuthUrl := Some "force://token@test.salesforce.com" |} in
  truthy (password scratchOrg) = true
  /\ is_Some (sfdxAuthUrl scratchOrg)
  /\ alias scratchOrg = Some ("SO" +:+ numberToString 1)
  /\ length (calls (snd after)) = length (calls (freshProcess ∅)) + 4.
Proof.
  apply (createScratchOrg_returns_complete poolRemote 1 (Some "admin@example.com")
           "config/project-scratch-def.json" 7 sampleHub None (freshProcess ∅)).
  vm_compute. reflexivity.
Defined.

(** ** Rows by key *)

Lemma arrayToObject_from (array : list ScratchOrgInfo.t) keyfield
    (obj : gmap string ScratchOrgInfo.t) (key : string) :
  fold_left (fun obj item => <[propertyKey (keyfield item) := item]> obj) array obj !! key
  = match last (List.filter (fun item => String.eqb (propertyKey (keyfield item)) key) array) with
    | Some item => Some item
    | None => obj !! key
    end.
Proof.
  revert obj. induction array as [|item rest IH]; intros obj; [reflexivity|].
  cbn [fold_left List.filter]. rewrite IH.
  destruct (String.eqb_spec (propertyKey (keyfield item)) key) as [Heq|Hne].
  - destruct (List.filter _ rest) as [|item' rest'] eqn:Hrest.
    + cbn. rewrite Heq. apply lookup_insert_eq.
    + rewrite last_cons_cons.
      destruct (last (item' :: rest')) eqn:Hlast; [reflexivity|].
      apply last_None in Hlast. discriminate.
  - destruct (last (List.filter _ rest)); [reflexivity|].
    now apply lookup_insert_ne.
Qed.

Lemma arrayToObject_last (array : list ScratchOrgInfo.t) keyfield (key : string) :
  arrayToObject array keyfield !! key
  = last (List.filter (fun item => String.eqb (propertyKey (keyfield item)) key) array).
Proof.
  unfold arrayToObject. rewrite arrayToObject_from, lookup_empty.
  now destruct (last _).
Qed.

(** [arrayToObject] keeps, under each key, the last row of the array
    that has it, and nothing under a key that no row has: a row is found
    under its key unless a later row has the same key. *)
Theorem arrayToObject_lookup (array : list ScratchOrgInfo.t) keyfield (key : string) :
  arrayToObject array keyfield !! key
  = last (List.filter (fun item => String.eqb (propertyKey (keyfield item)) key) array)
  /\ (arrayToObject array keyfield !! key = None
      <-> Forall (fun item => propertyKey (keyfield item) <> key) array)
  /\ forall before item after,
       array = before ++ item :: after ->
       Forall (fun later => propertyKey (keyfield later) <> propertyKey (keyfield item))
         after ->
       arrayToObject array keyfield !! propertyKey (keyfield item) = Some item.
Proof.
  split; [apply arrayToObject_last|]. split.
  - rewrite arrayToObject_last, last_None. split.
    + intros Hnil. apply Forall_forall. intros item Hin Heq.
      assert (Hfiltered :
        In item (List.filter
                   (fun item => String.eqb (propertyKey (keyfield item)) key) array)).
      { apply filter_In. split; [now apply list_elem_of_In|now apply String.eqb_eq]. }
      rewrite Hnil in Hfiltered. destruct Hfiltered.
    + intros Hall. induction Hall as [|item rest Hne _ IH]; [reflexivity|].
      cbn [List.filter]. apply String.eqb_neq in Hne. now rewrite Hne.
  - intros before item after -> Hafter. rewrite arrayToObject_last.
    rewrite List.filter_app. cbn [List.filter]. rewrite String.eqb_refl.
    assert (Hnone :
      List.filter
        (fun later => String.eqb (propertyKey (keyfield later)) (propertyKey (keyfield item)))
        after = []).
    { induction Hafter as [|later rest Hne _ IH]; [reflexivity|].
      cbn [List.filter]. apply String.eqb_neq in Hne. now rewrite Hne. }
    rewrite Hnone. apply last_snoc.
Qed.

(** The records by user are fetched with one query outside any retry
    wrapper: an error of that query reaches the caller at once, and an answer
    is returned as a map from each signup e-mail to the last row that has it. *)
Theorem getScratchOrgRecordsAsMapByUser_result remote hubOrg ctx w :
  let after := getScratchOrgRecordsAsMapByUser remote hubOrg ctx w in
  let q :=
    "SELECT count(id) In_Use, SignupEmail FROM ActiveScratchOrg GROUP BY SignupEmail ORDER BY count(id) DESC" in
  snd after = recordCall {| request := ReqQuery false q; policy := ctx |} w
  /\ (forall e, answerQuery remote (length (calls w)) false q = Thrown e ->
      fst after = Thrown e)
  /\ (forall results, answerQuery remote (length (calls w)) false q = Returned results ->
      exists byUser,
        fst after = Returned byUser
        /\ forall email,
             byUser !! email
             = last (List.filter
                       (fun row =>
                          String.eqb (propertyKey (ScratchOrgInfo.SignupEmail row)) email)
                       (records results))).
Proof.
  cbv zeta. unfold getScratchOrgRecordsAsMapByUser, bind, issue, ret.
  destruct (answerQuery remote (length (calls w)) false _) as [results|e];
    cbn [fst snd]; split; try reflexivity; split; try discriminate.
  - intros results' H. inversion H; subst. eexists. split; [reflexivity|].
    intros email. apply arrayToObject_last.
  - intros e' H. now inversion H.
Qed.

(** ** The listing *)

(** The rows of the answer are listed one for one and in their order,
    each with its tag, identifier, login URL, user name, password and expiry
    date; the record id and the auth URL of a row are not carried over. *)
Theorem execute_copies_rows remote check this ctx w l w' :
  execute remote check this ctx w = (Returned l, w') ->
  exists results n,
    answerQuery remote n false
      (scratchOrgsByTagQuery (impl_tag this) (impl_hubOrg this)
         (truthyFlag (impl_mypool this)) (negb (truthyFlag (impl_allScratchOrgs this))))
    = Returned results
    /\ Forall2
         (fun element so =>
            tag so = ScratchOrgInfo.Pooltag__c element
            /\ orgId so = ScratchOrgInfo.ScratchOrg element
            /\ loginURL so = ScratchOrgInfo.LoginUrl element
            /\ username so = ScratchOrgInfo.SignupUsername element
            /\ password so = ScratchOrgInfo.Password__c element
            /\ expityDate so = ScratchOrgInfo.ExpirationDate element
            /\ recordId so = None
            /\ sfdxAuthUrl so = None)
         (records results) l.
Proof.
  intros H. apply execute_returns in H as (results & n & Hanswer & ->).
  exists results, n. split; [assumption|].
  induction (records results) as [|element rest IH]; cbn; constructor; auto.
  repeat split.
Qed.




(** ** The tag histogram of the list command *)

Lemma tagCounts_from (result : list ScratchOrg) (obj : gmap string nat) (t : string) :
  default 0
    (fold_left
       (fun obj v => <[template (tag v) := default 0 (obj !! template (tag v)) + 1]> obj)
       result obj !! t)
  = default 0 (obj !! t)
    + length (List.filter (fun v => String.eqb (template (tag v)) t) result).
Proof.
  revert obj. induction result as [|v rest IH]; intros obj; cbn [fold_left List.filter].
  - cbn. lia.
  - rewrite IH. destruct (String.eqb_spec (template (tag v)) t) as [Heq|Hne].
    + rewrite Heq, lookup_insert_eq. cbn. lia.
    + rewrite lookup_insert_ne by assumption. reflexivity.
Qed.

Lemma tagCounts_positive (result : list ScratchOrg) (obj : gmap string nat) (t : string) :
  (forall k n, obj !! k = Some n -> 0 < n) ->
  forall n,
    fold_left
      (fun obj v => <[template (tag v) := default 0 (obj !! template (tag v)) + 1]> obj)
      result obj !! t = Some n ->
    0 < n.
Proof.
  revert obj. induction result as [|v rest IH]; intros obj Hobj n; cbn [fold_left].
  - apply Hobj.
  - apply IH. intros k m.
    destruct (decide (template (tag v) = k)) as [->|Hne].
    + rewrite lookup_insert_eq. intros [= <-]. lia.
    + rewrite lookup_insert_ne by assumption. apply Hobj.
Qed.

(** The histogram counts every listed scratch org once, under its tag:
    the count of a tag is the number of scratch orgs that carry it, and a tag
    that no scratch org carries has no entry. *)
Theorem tagCounts_counts (result : list ScratchOrg) (t : string) :
  let carrying := List.filter (fun v => String.eqb (template (tag v)) t) result in
  tagCounts result !! t
  = if Nat.eqb (length carrying) 0 then None else Some (length carrying).
Proof.
  cbv zeta. pose proof (tagCounts_from result ∅ t) as Hcount.
  rewrite lookup_empty in Hcount. cbn [default] in Hcount.
  rewrite Nat.add_0_l in Hcount. fold (tagCounts result) in Hcount.
  destruct (tagCounts result !! t) as [n|] eqn:Hlookup; cbn [default] in Hcount.
  - assert (0 < n).
    { apply (tagCounts_positive result ∅ t); [|exact Hlookup].
      intros k m. rewrite lookup_empty. discriminate. }
    rewrite <- Hcount. destruct n; [lia|reflexivity].
  - rewrite <- Hcount. reflexivity.
Qed.

(** ** What the methods leave alone *)

Lemma keeping_retry {A X} (f : World -> X) (fn : M A) opts :
  respects (keeping f) fn -> respects (keeping f) (retry fn opts).
Proof.
  intros H ctx w.
  apply (respects_retry (keeping f) fn opts (keeping_refl f) (keeping_trans f) H ctx w).
Qed.

Lemma keeping_writeObject {X} (f : World -> X) ref so :
  (forall h w, f (set_heap h w) = f w) -> respects (keeping f) (writeObject ref so).
Proof. intros Hf ctx w. apply Hf. Qed.

(** Steps through a method that leaves [f] of the world alone. *)
Ltac keeps f :=
  repeat first
    [ apply respects_ret; exact (keeping_refl f)
    | apply respects_throw; exact (keeping_refl f)
    | apply respects_readObject; exact (keeping_refl f)
    | apply respects_getWorld; exact (keeping_refl f)
    | apply keeping_issue; reflexivity
    | apply keeping_writeObject; reflexivity
    | apply keeping_retry
    | apply respects_tryCatch; [exact (keeping_trans f)| |intros ?]
    | apply respects_bind; [exact (keeping_trans f)| |intros ?]
    | match goal with |- respects _ (modifyWorld _) => intros ? ?; reflexivity end
    | match goal with |- respects _ (match ?x with _ => _ end) => destruct x end
    | match goal with |- respects _ (if ?x then _ else _) => destruct x end
    | match goal with |- respects _ (let '(_, _) := ?x in _) => destruct x end ].

Lemma truncateOrgIds_keeps {X} (f : World -> X) refs :
  (forall h w, f (set_heap h w) = f w) -> respects (keeping f) (truncateOrgIds refs).
Proof.
  intros Hf. induction refs as [|ref rest IH]; cbn [truncateOrgIds]; keeps f.
  - now apply keeping_writeObject.
  - exact IH.
Qed.

Lemma assignRecordIds_keeps {X} (f : World -> X) resultAsObject refs :
  (forall h w, f (set_heap h w) = f w) ->
  respects (keeping f) (assignRecordIds resultAsObject refs).
Proof.
  intros Hf. induction refs as [|ref rest IH]; cbn [assignRecordIds]; keeps f.
  - now apply keeping_writeObject.
  - exact IH.
Qed.

Lemma getScratchOrgRecordId_keeps {X} (f : World -> X) remote scratchOrgs hubOrg :
  (forall h w, f (set_heap h w) = f w) ->
  (forall c w, f (recordCall c w) = f w) ->
  respects (keeping f) (getScratchOrgRecordId remote scratchOrgs hubOrg).
Proof.
  intros Hheap Hcall. unfold getScratchOrgRecordId.
  destruct scratchOrgs as [[|ref rest]|];
    try (apply respects_ret; exact (keeping_refl f)).
  apply respects_bind; [exact (keeping_trans f)|now apply truncateOrgIds_keeps|].
  intros quoted. apply keeping_retry.
  apply respects_bind; [exact (keeping_trans f)|now apply keeping_issue|].
  intros results.
  apply respects_bind; [exact (keeping_trans f)|now apply assignRecordIds_keeps|].
  intros []. apply respects_ret. exact (keeping_refl f).
Qed.

(** No method of [PreRequisiteCheck], [ScratchOrgUtils] or [QueryHelper]
    changes the compatibility mode; only [getScratchOrgRecordId] writes to the
    scratch-org objects of its caller; only [checkForPrerequisites] writes the
    memoised statics of the prerequisite check. *)
Theorem operations_frame remote op w :
  let after := snd (perform remote op None w) in
  isNewVersionCompatible after = isNewVersionCompatible w
  /\ ((forall scratchOrgs hubOrg, op <> GetScratchOrgRecordId scratchOrgs hubOrg) ->
      heap after = heap w)
  /\ ((forall hubOrg, op <> CheckForPrerequisites hubOrg) ->
      isPrerequisiteChecked after = isPrerequisiteChecked w
      /\ isPrerequisiteMet after = isPrerequisiteMet w
      /\ describeResult after = describeResult w).
Proof.
  cbv zeta. split; [|split].
  - apply (respects_at (keeping isNewVersionCompatible)).
    destruct op; cbn [perform]; unfold discard;
      try (apply respects_bind;
           [exact (keeping_trans isNewVersionCompatible)
           |now apply getScratchOrgRecordId_keeps
           |intros ?; apply respects_ret; exact (keeping_refl isNewVersionCompatible)]);
      unfold checkForPrerequisites, describeAndScan, getScratchOrgLimits,
        getScratchOrgRecordsAsMapByUser, createScratchOrg, getScratchOrgLoginURL,
        shareScratchOrgThroughEmail, setScratchOrgInfo, getScratchOrgsByTag,
        getActiveScratchOrgsByInfoId, getCountOfActiveScratchOrgsByTag,
        getCountOfActiveScratchOrgsByTagAndUsername,
        getActiveScratchOrgRecordIdGivenScratchOrg, deleteScratchOrg, QueryHelper_query;
      keeps isNewVersionCompatible.
  - intros Hop. apply (respects_at (keeping heap)).
    destruct op; cbn [perform]; unfold discard;
      try (exfalso; eapply Hop; reflexivity);
      unfold checkForPrerequisites, describeAndScan, getScratchOrgLimits,
        getScratchOrgRecordsAsMapByUser, createScratchOrg, getScratchOrgLoginURL,
        shareScratchOrgThroughEmail, setScratchOrgInfo, getScratchOrgsByTag,
        getActiveScratchOrgsByInfoId, getCountOfActiveScratchOrgsByTag,
        getCountOfActiveScratchOrgsByTagAndUsername,
        getActiveScratchOrgRecordIdGivenScratchOrg, deleteScratchOrg, QueryHelper_query;
      keeps heap.
  - intros Hop.
    enough (H : keeping (fun w => (isPrerequisiteChecked w, isPrerequisiteMet w,
                                   describeResult w)) None w
                  (snd (perform remote op None w))).
    { unfold keeping in H. inversion H. auto. }
    apply (respects_at (keeping (fun w => (isPrerequisiteChecked w, isPrerequisiteMet w,
                                           describeResult w)))).
    destruct op; cbn [perform]; unfold discard;
      try (exfalso; eapply Hop; reflexivity);
      try (apply respects_bind;
           [exact (keeping_trans _)
           |now apply getScratchOrgRecordId_keeps
           |intros ?; apply respects_ret; exact (keeping_refl _)]);
      unfold getScratchOrgLimits,
        getScratchOrgRecordsAsMapByUser, createScratchOrg, getScratchOrgLoginURL,
        shareScratchOrgThroughEmail, setScratchOrgInfo, getScratchOrgsByTag,
        getActiveScratchOrgsByInfoId, getCountOfActiveScratchOrgsByTag,
        getCountOfActiveScratchOrgsByTagAndUsername,
        getActiveScratchOrgRecordIdGivenScratchOrg, deleteScratchOrg, QueryHelper_query;
      keeps (fun w => (isPrerequisiteChecked w, isPrerequisiteMet w, describeResult w)).
Qed.

(** ** Samples of the list command *)

Lemma execute_copies_rows_sample :
  exists results n,
    answerQuery poolRemote n false
      (scratchOrgsByTagQuery (impl_tag coreListing) (impl_hubOrg coreListing)
         (truthyFlag (impl_mypool coreListing))
         (negb (truthyFlag (impl_allScratchOrgs coreListing))))
    = Returned results
    /\ Forall2
         (fun element so =>
            tag so = ScratchOrgInfo.Pooltag__c element
            /\ orgId so = ScratchOrgInfo.ScratchOrg element
            /\ loginURL so = ScratchOrgInfo.LoginUrl element
            /\ username so = ScratchOrgInfo.SignupUsername element
            /\ password so = ScratchOrgInfo.Password__c element
            /\ expityDate so = ScratchOrgInfo.ExpirationDate element
            /\ recordId so = None
            /\ sfdxAuthUrl so = None)
         (records results) (map (soDetailOf true) poolRows).
Proof.
  apply (execute_copies_rows poolRemote newVersionFound coreListing None (freshProcess ∅)
           _ (snd (execute poolRemote newVersionFound coreListing None (freshProcess ∅)))).
  vm_compute. reflexivity.
Defined.



(** ** Counting and deleting *)

(** The two count methods are one and the same: the variant named after
    the user name issues the query of the other, with no filter on the user.
    Either returns the total size of the first answer after that one query. *)
Theorem count_methods_agree remote tag hubOrg ctx w :
  getCountOfActiveScratchOrgsByTagAndUsername remote tag hubOrg ctx w
  = getCountOfActiveScratchOrgsByTag remote tag hubOrg ctx w
  /\ forall results,
       answerQuery remote (length (calls w)) false (countQuery tag) = Returned results ->
       getCountOfActiveScratchOrgsByTag remote tag hubOrg ctx w
       = (Returned (totalSize results),
          recordCall
            {| request := ReqQuery false (countQuery tag);
               policy := Some {| retries := 3; minTimeout := 3000%N |} |} w).
Proof.
  split; [reflexivity|]. intros results H.
  unfold getCountOfActiveScratchOrgsByTag. apply retry_returned.
  unfold bind, issue, ret. now rewrite H.
Qed.

(** Deleting active scratch orgs issues the delete of the given record
    ids between one and four times, once when the first is answered, and
    touches no scratch-org object; the error it throws is the error of one of
    the deletes. *)
Theorem deleteScratchOrg_attempts remote hubOrg scratchOrgIds ctx w :
  let after := deleteScratchOrg remote hubOrg scratchOrgIds ctx w in
  let c := {| request := ReqDel "ActiveScratchOrg" scratchOrgIds;
              policy := Some {| retries := 3; minTimeout := 3000%N |} |} in
  (exists k, 1 <= k <= 4 /\ calls (snd after) = calls w ++ replicate k c)
  /\ heap (snd after) = heap w
  /\ (answerDel remote (length (calls w)) "ActiveScratchOrg" scratchOrgIds = Returned tt ->
      after = (Returned tt, recordCall c w))
  /\ (forall e, fst after = Thrown e ->
      exists n, answerDel remote n "ActiveScratchOrg" scratchOrgIds = Thrown e).
Proof.
  cbv zeta. unfold deleteScratchOrg. split; [|split; [|split]].
  - apply (retry_one_call _ {| retries := 3; minTimeout := 3000%N |}).
    intros w0. reflexivity.
  - apply (keeping_retry heap). apply keeping_issue. reflexivity.
  - intros H. apply retry_returned. unfold issue. now rewrite H.
  - intros e H. unfold retry in H.
    destruct (runAttempt _ _ _ _ _) as [out w'] eqn:Hrun. cbn in H. subst out.
    apply runAttempt_thrown in Hrun as [[]|(w0 & w1 & Hrun)].
    unfold issue in Hrun. inversion Hrun. eauto.
Qed.
